(** * svc-go-counter: the counter service of [main.go]

    A shallow embedding of the request path ([counterHandler], [getKey], the
    [render] methods), of the administrative [aboutHandler] and of the
    lifecycle of [main], together with the library calls they make:
    net/url's query parsing, gorilla/schema's [Decoder.Decode],
    [regexp.Match], go-redis's [Incr] and net/http's [ResponseWriter]. *)

From stdpp Require Import gmap strings list fin_maps pretty relations.
From Stdlib Require Import ZArith Ascii String.

Local Open Scope Z_scope.
Local Open Scope string_scope.

(** ** Go's [regexp] package, as far as the label pattern needs it *)

Module regexp.

(** The operators of [regexp/syntax] that the pattern of [counterHandler]
    compiles to, and those its derivatives are built from.  A character
    class is a list of inclusive ranges.  The input is read byte by byte:
    Go reads it rune by rune, but a class of ASCII ranges holds no rune of
    more than one byte, and no byte of such a rune is in it either. *)
Inductive Regexp : Type :=
| OpNoMatch
| OpEmptyMatch
| OpCharClass (ranges : list (ascii * ascii))
| OpConcat (a b : Regexp)
| OpAlternate (a b : Regexp)
| OpStar (r : Regexp)
| OpPlus (r : Regexp).

Definition in_range (c : ascii) (rg : ascii * ascii) : bool :=
  (Ascii.leb (fst rg) c && Ascii.leb c (snd rg))%bool.

Definition in_class (c : ascii) (ranges : list (ascii * ascii)) : bool :=
  existsb (in_range c) ranges.

(** What it means for a whole string to match. *)
Inductive matches : Regexp → string → Prop :=
| m_empty : matches OpEmptyMatch ""
| m_class c ranges :
    in_class c ranges = true → matches (OpCharClass ranges) (String c "")
| m_concat a b s t :
    matches a s → matches b t → matches (OpConcat a b) (s +:+ t)
| m_alt_l a b s : matches a s → matches (OpAlternate a b) s
| m_alt_r a b s : matches b s → matches (OpAlternate a b) s
| m_star_nil r : matches (OpStar r) ""
| m_star_cons r s t :
    matches r s → matches (OpStar r) t → matches (OpStar r) (s +:+ t)
| m_plus r s t :
    matches r s → matches (OpStar r) t → matches (OpPlus r) (s +:+ t).

(** The matcher: Brzozowski derivatives. *)
Fixpoint nullable (r : Regexp) : bool :=
  match r with
  | OpNoMatch => false
  | OpEmptyMatch => true
  | OpCharClass _ => false
  | OpConcat a b => nullable a && nullable b
  | OpAlternate a b => nullable a || nullable b
  | OpStar _ => true
  | OpPlus a => nullable a
  end.

Fixpoint deriv (c : ascii) (r : Regexp) : Regexp :=
  match r with
  | OpNoMatch => OpNoMatch
  | OpEmptyMatch => OpNoMatch
  | OpCharClass ranges => if in_class c ranges then OpEmptyMatch else OpNoMatch
  | OpConcat a b =>
      if nullable a
      then OpAlternate (OpConcat (deriv c a) b) (deriv c b)
      else OpConcat (deriv c a) b
  | OpAlternate a b => OpAlternate (deriv c a) (deriv c b)
  | OpStar a => OpConcat (deriv c a) (OpStar a)
  | OpPlus a => OpConcat (deriv c a) (OpStar a)
  end.

(** Some prefix of [s] matches [r]. *)
Fixpoint match_prefix (r : Regexp) (s : string) : bool :=
  nullable r ||
  match s with
  | "" => false
  | String c t => match_prefix (deriv c r) t
  end.

(** [MatchRegexp r b]: the unanchored search of the [Match] method of a
    compiled expression, which reports whether the byte slice [b] contains
    any match of the regular expression. *)
Fixpoint MatchRegexp (r : Regexp) (b : string) : bool :=
  match_prefix r b ||
  match b with
  | "" => false
  | String _ t => MatchRegexp r t
  end.

End regexp.

(** ** Go strings that are only described, not spelled out

    The error texts that end up in a response go through [strconv.Quote]
    (the %q verb).  They are kept in the shape the library builds them:
    plain text, or text around one quoted string. *)

Inductive message : Type :=
| Text (s : string)
| Quoting (pre quoted post : string).

(** ** Byte-string helpers *)

Module strings.

Definition between (lo hi c : ascii) : bool :=
  (Ascii.leb lo c && Ascii.leb c hi)%bool.

(** The pieces of [s] between the bytes satisfying [sep], in order. *)
Fixpoint fields (sep : ascii → bool) (s : string) : list string :=
  match s with
  | "" => [""]
  | String c t =>
      if sep c then "" :: fields sep t
      else match fields sep t with
           | f :: fs => String c f :: fs
           | [] => [String c ""]
           end
  end.

(** [cut c s]: the text before the first [c] and the text after it; when
    there is no [c], all of [s] and the empty string. *)
Fixpoint cut (c : ascii) (s : string) : string * string :=
  match s with
  | "" => ("", "")
  | String x t =>
      if Ascii.eqb x c then ("", t)
      else let '(k, v) := cut c t in (String x k, v)
  end.

Fixpoint take (n : nat) (s : string) : string :=
  match n, s with
  | S n', String c t => String c (take n' t)
  | _, _ => ""
  end.

Fixpoint Contains (c : ascii) (s : string) : bool :=
  match s with
  | "" => false
  | String x t => Ascii.eqb x c || Contains c t
  end.

Definition lower (c : ascii) : ascii :=
  if between "A" "Z" c then ascii_of_N (N_of_ascii c + 32) else c.

Fixpoint ToLower (s : string) : string :=
  match s with
  | "" => ""
  | String c t => String (lower c) (ToLower t)
  end.

(** [EqualFold] on ASCII letters.  The service only ever folds against
    the alias [label], none of whose letters has a non-ASCII case variant,
    so Unicode simple folding and this one agree there. *)
Definition EqualFold (s t : string) : bool :=
  String.eqb (ToLower s) (ToLower t).

End strings.

(** ** net/url: query strings

    As in the Go release the image of the service is built with, where
    both [&] and [;] separate the pairs. *)

Module url.

(** [url.Values]: a key to the list of its values. *)
Abbreviation Values := (gmap string (list string)).

(** The malformed escape, as the error value carries it. *)
Inductive EscapeError : Type := MkEscapeError (s : string).

Definition EscapeError_Error (e : EscapeError) : message :=
  let 'MkEscapeError s := e in Quoting "invalid URL escape " s "".

Definition ishex (c : ascii) : bool :=
  strings.between "0" "9" c || strings.between "a" "f" c
  || strings.between "A" "F" c.

Definition unhex (c : ascii) : N :=
  if strings.between "0" "9" c then (N_of_ascii c - 48)%N
  else if strings.between "a" "f" c then (N_of_ascii c - 97 + 10)%N
  else if strings.between "A" "F" c then (N_of_ascii c - 65 + 10)%N
  else 0%N.

(** [QueryUnescape]: [%XX] is one byte, [+] is a space; a [%] that is not
    followed by two hex digits is an error that carries the [%] and up to
    two bytes after it. *)
Fixpoint QueryUnescape (s : string) : string * option EscapeError :=
  match s with
  | "" => ("", None)
  | String c t =>
      if Ascii.eqb c "%" then
        match t with
        | String h1 (String h2 rest) =>
            if ishex h1 && ishex h2 then
              match QueryUnescape rest with
              | (u, None) =>
                  (String (ascii_of_N (unhex h1 * 16 + unhex h2)) u, None)
              | (_, Some e) => ("", Some e)
              end
            else ("", Some (MkEscapeError (strings.take 3 s)))
        | _ => ("", Some (MkEscapeError (strings.take 3 s)))
        end
      else
        match QueryUnescape t with
        | (u, None) => (String (if Ascii.eqb c "+" then " "%char else c) u, None)
        | (_, Some e) => ("", Some e)
        end
  end.

Definition first_error (err err1 : option EscapeError) : option EscapeError :=
  match err with
  | None => err1
  | Some _ => err
  end.

(** One turn of the loop of [parseQuery], on the piece [key] between two
    separators. *)
Definition parsePair (acc : Values * option EscapeError) (key : string)
  : Values * option EscapeError :=
  let '(m, err) := acc in
  if String.eqb key "" then (m, err)
  else
    let '(key, value) := strings.cut "=" key in
    match QueryUnescape key with
    | (_, Some err1) => (m, first_error err (Some err1))
    | (key, None) =>
        match QueryUnescape value with
        | (_, Some err1) => (m, first_error err (Some err1))
        | (value, None) =>
            (<[key := (default [] (m !! key) ++ [value])%list]> m, err)
        end
    end.

Definition separator (c : ascii) : bool :=
  Ascii.eqb c "&" || Ascii.eqb c ";".

(** [ParseQuery]: every well-formed pair is kept, the first error met is
    returned with them. *)
Definition ParseQuery (query : string) : Values * option EscapeError :=
  foldl parsePair (∅, None) (strings.fields separator query).

End url.

(** ** Iterating over a Go map

    The order in which [range] visits a map is not specified and changes
    from one loop to the next.  A [RangeOrder] is the choice made during one
    request: some enumeration of the entries of each map ranged over. *)

Record RangeOrder : Type := {
  range : ∀ A : Type, gmap string A → list (string * A);
  range_perm : ∀ (A : Type) (m : gmap string A), range A m ≡ₚ map_to_list m
}.
Arguments range _ {A} _.

Definition ascending : RangeOrder :=
  {| range := λ A m, map_to_list m;
     range_perm := λ A m, reflexivity (map_to_list m) |}.

Definition descending : RangeOrder :=
  {| range := λ A m, reverse (map_to_list m);
     range_perm := λ A m, reverse_Permutation (map_to_list m) |}.

(** ** gorilla/schema: decoding a form into a struct *)

Module schema.

(** The two options of a [Decoder] that matter for a struct with one
    string field.  The library documents them so: under
    [IgnoreUnknownKeys(true)] a key of the map that the struct has no field
    for is ignored, otherwise [Decode] returns an error for it, and the
    default is false; under [ZeroEmpty(true)] a key whose value is the empty
    string sets its field to the zero value, otherwise empty strings are
    ignored, and the default is false, "that is empty values do not change
    the value of the struct field". *)
Record Decoder : Type := {
  ignoreUnknownKeys : bool;
  zeroEmpty : bool
}.

(** [NewDecoder] sets neither option: unknown keys are reported, and an
    empty value leaves the field as it is. *)
Definition NewDecoder : Decoder :=
  {| ignoreUnknownKeys := false; zeroEmpty := false |}.

Definition IgnoreUnknownKeys (i : bool) (d : Decoder) : Decoder :=
  {| ignoreUnknownKeys := i; zeroEmpty := zeroEmpty d |}.

Definition ZeroEmpty (z : bool) (d : Decoder) : Decoder :=
  {| ignoreUnknownKeys := ignoreUnknownKeys d; zeroEmpty := z |}.

Inductive UnknownKeyError : Type := MkUnknownKeyError (Key : string).

(** [MultiError]: the errors of one [Decode], by the key that caused each.
    A string field cannot fail to convert and nothing is required, so the
    unknown keys are the only errors there can be. *)
Abbreviation MultiError := (gmap string UnknownKeyError).

Definition plural (others : nat) : string :=
  match others with
  | O => ""
  | 1%nat => " (and 1 other error)"
  | _ => " (and " +:+ pretty others +:+ " other errors)"
  end.

(** [MultiError.Error]: the text of whichever error the loop over the map
    meets first, and how many others there are. *)
Definition MultiError_Error (ρ : RangeOrder) (e : MultiError) : message :=
  match range ρ e with
  | [] => Text "(0 errors)"
  | (_, MkUnknownKeyError key) :: _ =>
      Quoting "schema: invalid path " key (plural (size e - 1))
  end.

(** [parsePath] for a struct whose only field is a string with the given
    alias: the path is split at dots, its first part has to name the field
    (letter case does not count), and no part may follow, a string having
    no fields of its own. *)
Definition parsePath (alias p : string) : bool :=
  match strings.fields (Ascii.eqb ".") p with
  | [k] => strings.EqualFold alias k
  | _ => false
  end.

(** [decode] on the string field: the last value is taken; an empty one
    only counts under [zeroEmpty]. *)
Definition decode (d : Decoder) (field : string) (values : list string)
  : string :=
  let val := default "" (last values) in
  if String.eqb val "" then
    if zeroEmpty d then "" else field
  else val.

(** One turn of the loop of [Decode]. *)
Definition visit (d : Decoder) (alias : string)
    (acc : string * MultiError) (entry : string * list string)
  : string * MultiError :=
  let '(field, errors) := acc in
  let '(path, values) := entry in
  if parsePath alias path then (decode d field values, errors)
  else if negb (ignoreUnknownKeys d)
       then (field, <[path := MkUnknownKeyError path]> errors)
       else (field, errors).

(** [Decode] into a struct with one string field: [field] is the value
    the field holds before the call, the result the value it holds after,
    and the errors, if there are any. *)
Definition Decode (d : Decoder) (ρ : RangeOrder) (alias : string)
    (field : string) (src : gmap string (list string))
  : string * option MultiError :=
  let '(field, errors) := foldl (visit d alias) (field, ∅) (range ρ src) in
  if (0 <? size errors)%nat then (field, Some errors)
  else (field, None).

End schema.

(** ** go-redis: the counter store *)

Module redis.

(** What a key of the server holds: a string that reads as a 64-bit
    integer, a string that does not, or a value that is not a string. *)
Inductive value : Type :=
| Integer (n : Z)
| NotAnInteger
| WrongType.

Inductive command : Type := INCR (key : string).

(** The keyspace of the server, and the commands the client has issued
    (the latest first). *)
Record Server : Type := {
  db : gmap string value;
  issued : list command
}.

(** The round trip of one command: it goes through, or the command never
    reaches the server, or it is applied and its reply is lost. *)
Inductive Link : Type :=
| Connected
| Unreachable (reason : string)
| ReplyLost (reason : string).

Inductive Error : Type := MkError (s : string).

Definition Error_Error (e : Error) : message :=
  let 'MkError s := e in Text s.

Definition MaxInt64 : Z := 9223372036854775807.

(** The server's side of INCR: an absent key counts as 0. *)
Definition incr (key : string) (m : gmap string value)
  : gmap string value * (Z * option Error) :=
  match m !! key with
  | None => (<[key := Integer 1]> m, (1, None))
  | Some (Integer n) =>
      if decide (n = MaxInt64)
      then (m, (0, Some (MkError "ERR increment or decrement would overflow")))
      else (<[key := Integer (n + 1)]> m, (n + 1, None))
  | Some NotAnInteger =>
      (m, (0, Some (MkError "ERR value is not an integer or out of range")))
  | Some WrongType =>
      (m, (0, Some (MkError
        "WRONGTYPE Operation against a key holding the wrong kind of value")))
  end.

(** [client.Incr(key).Result()]. *)
Definition Incr (link : Link) (key : string) (srv : Server)
  : (Z * option Error) * Server :=
  let sent := INCR key :: issued srv in
  match link with
  | Connected =>
      let '(m, reply) := incr key (db srv) in
      (reply, {| db := m; issued := sent |})
  | Unreachable reason =>
      ((0, Some (MkError reason)), {| db := db srv; issued := sent |})
  | ReplyLost reason =>
      let '(m, _) := incr key (db srv) in
      ((0, Some (MkError reason)), {| db := m; issued := sent |})
  end.

End redis.

(** ** The structs of [main.go] *)

Record Config : Type := {
  Port : Z;
  AdminPort : Z;
  GracefulShutdownTimeout : Z;   (* a time.Duration, in nanoseconds *)
  RedisURL : string;
  RedisPW : string;
  RedisDB : Z;
  RedisPrefix : string;
  RedisHealthyConnectTimeoutThreshold : Z
}.

(** The values of the [default] tags, which [initConfig] leaves in place
    when the environment sets nothing. *)
Definition defaultConfig : Config :=
  {| Port := 80;
     AdminPort := 9000;
     GracefulShutdownTimeout := 30 * 1000000000;
     RedisURL := "localhost:6379";
     RedisPW := "";
     RedisDB := 0;
     RedisPrefix := "counter";
     RedisHealthyConnectTimeoutThreshold := 100 * 1000000 |}.

Definition BaseLabel : string := "next".

Record CounterRequest : Type := { Label : string }.

Record NumberResponse : Type := { Value : Z }.

Record AboutResponse : Type := {
  Name : string;
  Version : string;
  Hostname : string
}.

Record ErrorResponse : Type := { Error : message }.

Inductive ServerStatus : Type :=
| Starting
| Running
| ShuttingDown.

(** The integer behind a status, as [iota] numbers them. *)
Definition ServerStatus_int (s : ServerStatus) : Z :=
  match s with
  | Starting => 0
  | Running => 1
  | ShuttingDown => 2
  end.

Definition ServerStatus_String (s : ServerStatus) : string :=
  default "" (["starting"; "running"; "shutting down"]
                !! Z.to_nat (ServerStatus_int s)).

(** ** encoding/json *)

Module json.

(** The bytes [Marshal] returns, named by the struct they encode: an
    object with the fields [value], or [name], [version] and [hostname],
    or [error]. *)
Inductive encoded : Type :=
| of_NumberResponse (v : NumberResponse)
| of_AboutResponse (a : AboutResponse)
| of_ErrorResponse (e : ErrorResponse).

(** The bytes of an encoded [NumberResponse], spelled out: the field name
    in quotes, a colon, and the value in decimal. *)
Definition quote : string := String (ascii_of_N 34) "".

Definition bytes_of_NumberResponse (v : NumberResponse) : string :=
  "{" +:+ quote +:+ "value" +:+ quote +:+ ":" +:+ pretty (Value v) +:+ "}".

Inductive MarshalError : Type := MkMarshalError (s : string).

Definition MarshalError_Error (e : MarshalError) : message :=
  let 'MkMarshalError s := e in Text s.

(** [Marshal] reports an error for channels, functions, cyclic values and
    the like; a struct of strings and integers always encodes. *)
Definition Marshal_NumberResponse (v : NumberResponse)
  : option encoded * option MarshalError :=
  (Some (of_NumberResponse v), None).

Definition Marshal_AboutResponse (a : AboutResponse)
  : option encoded * option MarshalError :=
  (Some (of_AboutResponse a), None).

Definition Marshal_ErrorResponse (e : ErrorResponse)
  : option encoded * option MarshalError :=
  (Some (of_ErrorResponse e), None).

End json.

(** ** net/http: requests and response writers *)

Module http.

Definition StatusOK : Z := 200.
Definition StatusBadRequest : Z := 400.
Definition StatusInternalServerError : Z := 500.

(** What [ParseForm] can fail with: a malformed escape, in the query string
    or in a form body, or some other error of reading the body. *)
Inductive FormError : Type :=
| escape (e : url.EscapeError)
| other (m : message).

Definition FormError_Error (e : FormError) : message :=
  match e with
  | escape e => url.EscapeError_Error e
  | other m => m
  end.

(** A request, as far as [ParseForm] looks at it.  [postBody] stands for
    the body: it is what [parsePostForm] returns when it reads it.  [Form]
    and [PostForm] are unset until [ParseForm] has run. *)
Record Request : Type := {
  Method : string;
  RawQuery : string;
  postBody : option url.Values * option FormError;
  PostForm : option url.Values;
  Form : option url.Values
}.

(** [NewRequest(method, "/?" + query, nil)]: there is no body to read. *)
Definition NewRequest (method query : string) : Request :=
  {| Method := method;
     RawQuery := query;
     postBody := (None, Some (other (Text "missing form body")));
     PostForm := None;
     Form := None |}.

Definition hasForm (method : string) : bool :=
  String.eqb method "POST" || String.eqb method "PUT"
  || String.eqb method "PATCH".

(** [copyValues]: every value of [src] is added to [dst], after those its
    key has there.  The keys of [src] are visited in some order, which does
    not show in the result. *)
Definition copyValues (dst src : url.Values) : url.Values :=
  union_with (λ vs ws, Some (vs ++ ws)%list) dst src.

(** [ParseForm] fills [PostForm] from the body of a POST, PUT or PATCH,
    and [Form] from [PostForm] and then the query string.  What is already
    set is left alone: on a request parsed before, nothing is done and no
    error is reported. *)
Definition ParseForm (r : Request) : Request * option FormError :=
  let '(postForm, err) :=
    match PostForm r with
    | Some vs => (vs, None)
    | None =>
        let '(vs, err) :=
          if hasForm (Method r) then postBody r else (None, None) in
        (default ∅ vs, err)
    end in
  let '(form, err) :=
    match Form r with
    | Some form => (form, err)
    | None =>
        let form :=
          if (0 <? size postForm)%nat then Some (copyValues ∅ postForm)
          else None in
        let '(newValues, e) := url.ParseQuery (RawQuery r) in
        let err := match err with
                   | None => escape <$> e
                   | Some _ => err
                   end in
        match form with
        | None => (newValues, err)
        | Some form => (copyValues form newValues, err)
        end
    end in
  ({| Method := Method r;
      RawQuery := RawQuery r;
      postBody := postBody r;
      PostForm := Some postForm;
      Form := Some form |}, err).

(** The strings handed to [http.Error]. *)
Inductive text : Type :=
| Str (m : message)
| string_of (b : option json.encoded)      (* string(encoded) *)
| error_object (m : message).              (* Sprintf of { "error": "%s" } *)

Inductive written : Type :=
| Write_bytes (b : option json.encoded)    (* w.Write(encoded) *)
| Fprintln (s : text).                     (* the text and a newline *)

(** A response writer: the header map the handler edits, the status and
    header that went out with the first write, and the body so far. *)
Record ResponseWriter : Type := {
  header : gmap string string;
  wroteHeader : option (Z * gmap string string);
  body : list written
}.

Definition NewRecorder : ResponseWriter :=
  {| header := ∅; wroteHeader := None; body := [] |}.

Definition Header_Set (key val : string) (w : ResponseWriter)
  : ResponseWriter :=
  {| header := <[key := val]> (header w);
     wroteHeader := wroteHeader w;
     body := body w |}.

(** Only the first [WriteHeader] counts. *)
Definition WriteHeader (code : Z) (w : ResponseWriter) : ResponseWriter :=
  match wroteHeader w with
  | Some _ => w
  | None =>
      {| header := header w;
         wroteHeader := Some (code, header w);
         body := body w |}
  end.

(** A write before any [WriteHeader] sends status 200 first. *)
Definition Write (data : written) (w : ResponseWriter) : ResponseWriter :=
  let w := WriteHeader StatusOK w in
  {| header := header w;
     wroteHeader := wroteHeader w;
     body := body w ++ [data] |}.

(** [http.Error]. *)
Definition Error (error : text) (code : Z) (w : ResponseWriter)
  : ResponseWriter :=
  let w := Header_Set "Content-Type" "text/plain; charset=utf-8" w in
  let w := Header_Set "X-Content-Type-Options" "nosniff" w in
  let w := WriteHeader code w in
  Write (Fprintln error) w.

(** What the client gets, once the handler has returned. *)
Record Response : Type := {
  StatusCode : Z;
  Header : gmap string string;
  Body : list written
}.

Definition Result (w : ResponseWriter) : Response :=
  match wroteHeader w with
  | Some (code, h) => {| StatusCode := code; Header := h; Body := body w |}
  | None => {| StatusCode := StatusOK; Header := header w; Body := body w |}
  end.

End http.

(** ** os *)

Module os.

(** The host the process runs on: the name its kernel reports, when the
    lookup works. *)
Record Host : Type := { nodename : option string }.

Inductive PathError : Type := MkPathError (s : string).

Definition Hostname (h : Host) : string * option PathError :=
  match nodename h with
  | Some name => (name, None)
  | None => ("", Some (MkPathError "open /proc/sys/kernel/hostname"))
  end.

End os.

(** ** [main.go]: the handlers *)

Definition paramDecoder : schema.Decoder := schema.NewDecoder.

(** The pattern of [counterHandler], compiled: one or more bytes of the
    class [a-zA-Z0-9]. *)
Definition labelClass : list (ascii * ascii) :=
  [("a", "z"); ("A", "Z"); ("0", "9")]%char.

Definition labelPattern : regexp.Regexp :=
  regexp.OpPlus (regexp.OpCharClass labelClass).

(** [regexp.Match]: the pattern compiles, so the error is nil and the result
    is that of the search. *)
Definition regexp_Match (pattern : regexp.Regexp) (b : string)
  : bool * option string :=
  (regexp.MatchRegexp pattern b, None).

Definition getKey (config : Config) (label : string) : string :=
  RedisPrefix config +:+ "." +:+ BaseLabel +:+ "." +:+ label.

Definition NumberResponse_render (v : NumberResponse) (w : http.ResponseWriter)
  : http.ResponseWriter :=
  let '(encoded, err) := json.Marshal_NumberResponse v in
  let w := match err with
           | Some err =>
               http.Error (http.Str (json.MarshalError_Error err))
                 http.StatusInternalServerError w
           | None => w
           end in
  let w := http.Header_Set "Content-Type" "application/json" w in
  http.Write (http.Write_bytes encoded) w.

Definition AboutResponse_render (a : AboutResponse) (w : http.ResponseWriter)
  : http.ResponseWriter :=
  let '(encoded, err) := json.Marshal_AboutResponse a in
  let w := match err with
           | Some err =>
               http.Error (http.Str (json.MarshalError_Error err))
                 http.StatusInternalServerError w
           | None => w
           end in
  let w := http.Header_Set "Content-Type" "application/json" w in
  http.Write (http.Write_bytes encoded) w.

Definition ErrorResponse_render (e : ErrorResponse) (code : Z)
    (w : http.ResponseWriter) : http.ResponseWriter :=
  let w := http.Header_Set "Content-Type" "application/json" w in
  let '(encoded, err) := json.Marshal_ErrorResponse e in
  let w := match err with
           | Some err =>
               http.Error (http.error_object (json.MarshalError_Error err))
                 http.StatusInternalServerError w
           | None => w
           end in
  http.Error (http.string_of encoded) code w.

(** What one request meets outside the process: the orders its loops over
    maps take, and the state of the connection to the store. *)
Record World : Type := {
  order : RangeOrder;
  link : redis.Link
}.

(** [paramDecoder.Decode(&params, r.Form)]: the field [Label] carries the
    tag [schema:"label"]. *)
Definition Decode_CounterRequest (d : schema.Decoder) (ρ : RangeOrder)
    (params : CounterRequest) (src : url.Values)
  : CounterRequest * option schema.MultiError :=
  let '(label, err) := schema.Decode d ρ "label" (Label params) src in
  ({| Label := label |}, err).

(** [counterHandler].  The writer, the request and the store client are
    the three things it changes. *)
Definition counterHandler (config : Config) (env : World)
    (w : http.ResponseWriter) (r : http.Request) (rclient : redis.Server)
  : http.ResponseWriter * http.Request * redis.Server :=
  let '(r, err) := http.ParseForm r in
  match err with
  | Some err =>
      (ErrorResponse_render {| Error := http.FormError_Error err |}
         http.StatusBadRequest w, r, rclient)
  | None =>
      let params := {| Label := "default" |} in
      let '(params, err) :=
        Decode_CounterRequest paramDecoder (order env) params
          (default ∅ (http.Form r)) in
      match err with
      | Some err =>
          (ErrorResponse_render
             {| Error := schema.MultiError_Error (order env) err |}
             http.StatusBadRequest w, r, rclient)
      | None =>
          let '(valid, err) := regexp_Match labelPattern (Label params) in
          if negb valid || bool_decide (err ≠ None) then
            (ErrorResponse_render {| Error := Text "invalid label" |}
               http.StatusBadRequest w, r, rclient)
          else
            let '((val, err), rclient) :=
              redis.Incr (link env) (getKey config (Label params)) rclient in
            match err with
            | Some err =>
                (ErrorResponse_render {| Error := redis.Error_Error err |}
                   http.StatusBadRequest w, r, rclient)
            | None =>
                (NumberResponse_render {| Value := val |} w, r, rclient)
            end
      end
  end.

(** [aboutHandler]: [version] is the package variable, ["dev"] unless the
    linker was given another value. *)
Definition aboutHandler (version : string) (host : os.Host)
    (w : http.ResponseWriter) (r : http.Request) : http.ResponseWriter :=
  let '(hostname, _) := os.Hostname host in
  let response :=
    {| Name := "counter"; Version := version; Hostname := hostname |} in
  AboutResponse_render response w.

(** The server in front of the handler: each request gets a writer of its
    own, and the store is what the requests share. *)
Definition serveOne (config : Config) (env : World) (r : http.Request)
    (rclient : redis.Server) : http.Response * redis.Server :=
  let '(w, _, rclient) := counterHandler config env http.NewRecorder r rclient in
  (http.Result w, rclient).

Fixpoint serve (config : Config) (reqs : list (World * http.Request))
    (rclient : redis.Server) : list http.Response * redis.Server :=
  match reqs with
  | [] => ([], rclient)
  | (env, r) :: rest =>
      let '(resp, rclient) := serveOne config env r rclient in
      let '(resps, rclient) := serve config rest rclient in
      (resp :: resps, rclient)
  end.

(** The loop of the tests: one request value handed to the handler again
    and again, each time with a new recorder. *)
Fixpoint replay (config : Config) (envs : list World) (r : http.Request)
    (rclient : redis.Server) : list http.Response * redis.Server :=
  match envs with
  | [] => ([], rclient)
  | env :: rest =>
      let '(w, r, rclient) :=
        counterHandler config env http.NewRecorder r rclient in
      let '(resps, rclient) := replay config rest r rclient in
      (http.Result w :: resps, rclient)
  end.

(** ** [main.go]: the lifecycle of [main] *)

(** The places of [main] between which something observable happens. *)
Inductive Point : Type :=
| at_initConfig
| at_initAdminServer
| at_initRedisClient
| at_Listen
| at_Serve
| at_setRunning
| at_awaitSignal
| at_setShuttingDown
| at_Shutdown
| returned
| exited.          (* log.Fatal *)

(** The process: where [main] is, and the package variable
    [serverStatus], which only [main] assigns. *)
Record Process : Type := {
  pc : Point;
  serverStatus : ServerStatus
}.

(** [var serverStatus = Starting]. *)
Definition boot : Process := {| pc := at_initConfig; serverStatus := Starting |}.

(** What the surroundings decide during one step. *)
Record Fate : Type := {
  configError : bool;       (* envconfig.Process fails *)
  listenError : bool;       (* net.Listen fails *)
  interrupt : bool;         (* a signal is waiting on the channel *)
  shutdownError : bool      (* server.Shutdown fails *)
}.

Definition goto (p : Point) (st : ServerStatus) : option Process :=
  Some {| pc := p; serverStatus := st |}.

(** One step of [main]; [None] when it has ended or waits for the signal. *)
Definition main_step (f : Fate) (p : Process) : option Process :=
  let st := serverStatus p in
  match pc p with
  | at_initConfig =>
      if configError f then goto exited st else goto at_initAdminServer st
  | at_initAdminServer => goto at_initRedisClient st
  | at_initRedisClient => goto at_Listen st
  | at_Listen => if listenError f then goto exited st else goto at_Serve st
  | at_Serve => goto at_setRunning st
  | at_setRunning => goto at_awaitSignal Running
  | at_awaitSignal => if interrupt f then goto at_setShuttingDown st else None
  | at_setShuttingDown => goto at_Shutdown ShuttingDown
  | at_Shutdown => if shutdownError f then goto exited st else goto returned st
  | returned => None
  | exited => None
  end.

Definition step (p p' : Process) : Prop := ∃ f, main_step f p = Some p'.

(** The states [main] can be in. *)
Definition reachable (p : Process) : Prop := rtc step boot p.

(** [main] run for at most [n] steps under one fate: the states it passes
    through after [p]. *)
Fixpoint run (f : Fate) (n : nat) (p : Process) : list Process :=
  match n with
  | O => []
  | S n' =>
      match main_step f p with
      | Some p' => p' :: run f n' p'
      | None => []
      end
  end.

(** The readiness check registered under the name [http]. *)
Definition httpCheck (p : Process) : option string :=
  match serverStatus p with
  | Running => None
  | st => Some ("HTTP server is " +:+ ServerStatus_String st)
  end.

(** Where [main] is tells what [serverStatus] holds. *)
Definition consistent (p : Process) : Prop :=
  match pc p with
  | at_initConfig | at_initAdminServer | at_initRedisClient | at_Listen
  | at_Serve | at_setRunning => serverStatus p = Starting
  | at_awaitSignal | at_setShuttingDown => serverStatus p = Running
  | at_Shutdown | returned => serverStatus p = ShuttingDown
  | exited => serverStatus p ≠ Running
  end.

(** One assignment forward, or none. *)
Definition forward (st st' : ServerStatus) : Prop :=
  st' = st ∨ (st = Starting ∧ st' = Running)
  ∨ (st = Running ∧ st' = ShuttingDown).

(** ** Vocabulary of the statements *)

(** An alphanumeric byte, and a string that has one. *)
Definition alnum (c : ascii) : bool :=
  strings.between "a" "z" c || strings.between "A" "Z" c
  || strings.between "0" "9" c.

Fixpoint hasAlnum (s : string) : bool :=
  match s with
  | "" => false
  | String c t => alnum c || hasAlnum t
  end.

Fixpoint allAlnum (s : string) : bool :=
  match s with
  | "" => true
  | String c t => alnum c && allAlnum t
  end.

(** The string has a run of alphanumeric bytes somewhere in it. *)
Definition alnumRunIn (b : string) : Prop :=
  ∃ pre run post, b = pre +:+ run +:+ post ∧ run ≠ "" ∧ allAlnum run = true.

(** A string that a query string carries as it is: none of its bytes
    separates pairs or starts an escape. *)
Definition plain (s : string) : bool :=
  negb (strings.Contains "&" s || strings.Contains ";" s
        || strings.Contains "%" s || strings.Contains "+" s).

(** The label a request asks for: what [params.Label] holds once
    [ParseForm] and [Decode] have both returned without error. *)
Definition boundLabel (ρ : RangeOrder) (r : http.Request) : option string :=
  match http.ParseForm r with
  | (_, Some _) => None
  | (r, None) =>
      match Decode_CounterRequest paramDecoder ρ {| Label := "default" |}
              (default ∅ (http.Form r)) with
      | (_, Some _) => None
      | (params, None) => Some (Label params)
      end
  end.

(** The parameters of a request and the error of parsing them. *)
Definition parsed (r : http.Request) : url.Values * option http.FormError :=
  let '(r, err) := http.ParseForm r in (default ∅ (http.Form r), err).

(** A key of the form stands for the field [Label]. *)
Definition namesLabel (k : string) : bool := schema.parsePath "label" k.

(** The two replies of [counterHandler], on a writer nothing was written to. *)
Definition errorReply (m : message) : http.Response :=
  http.Result
    (ErrorResponse_render {| Error := m |} http.StatusBadRequest http.NewRecorder).

Definition numberReply (v : Z) : http.Response :=
  http.Result (NumberResponse_render {| Value := v |} http.NewRecorder).

(** The counter of [label] stands at [k]: the key is absent for 0, and
    holds [k] otherwise. *)
Definition stands_at (config : Config) (label : string) (k : Z)
    (srv : redis.Server) : Prop :=
  redis.db srv !! getKey config label =
  if decide (k = 0) then None else Some (redis.Integer k).

(** The errors [Decode] is to collect: one for each key that does not name
    the field, unless unknown keys are ignored. *)
Definition unknownKeys (d : schema.Decoder) (alias : string)
    (src : url.Values) : schema.MultiError :=
  if schema.ignoreUnknownKeys d then ∅
  else map_imap (λ k _, if schema.parsePath alias k then None
                        else Some (schema.MkUnknownKeyError k)) src.

Definition calm : World := {| order := ascending; link := redis.Connected |}.

Definition empty_store : redis.Server :=
  {| redis.db := ∅; redis.issued := [] |}.

(** ** net/http: the request multiplexer, and the two routers of [main.go] *)

(** The handlers the routers of [main.go] are given, and the one a
    multiplexer falls back to. *)
Inductive Handler : Type :=
| to_counterHandler
| to_aboutHandler
| to_metrics            (* promhttp.HandlerFor(metrics, ...) *)
| to_LiveEndpoint       (* health.LiveEndpoint *)
| to_ReadyEndpoint      (* health.ReadyEndpoint *)
| to_NotFound.          (* http.NotFoundHandler() *)

Module mux.

(** [ServeMux]: the handler of each registered pattern, and whether some
    pattern names a host.  What follows is the lookup of a handler for a
    host and a path, [handler] and [match]; the cleaning of the path that a
    multiplexer does before, with its redirects, is not part of it. *)
Record ServeMux : Type := {
  m : gmap string Handler;
  hosts : bool
}.

Definition NewServeMux : ServeMux := {| m := ∅; hosts := false |}.

(** [Handle] panics, here [None], on an empty pattern and on a pattern that
    is registered already. *)
Definition Handle (pattern : string) (h : Handler) (mx : ServeMux)
  : option ServeMux :=
  match pattern with
  | "" => None
  | String c _ =>
      match m mx !! pattern with
      | Some _ => None
      | None =>
          Some {| m := <[pattern := h]> (m mx);
                  hosts := hosts mx || negb (Ascii.eqb c "/") |}
      end
  end.

Fixpoint endsWithSlash (s : string) : bool :=
  match s with
  | "" => false
  | String c "" => Ascii.eqb c "/"
  | String _ t => endsWithSlash t
  end.

(** [pathMatch]: a pattern that ends in a slash matches the paths it is a
    prefix of, any other pattern matches itself only. *)
Definition pathMatch (pattern path : string) : bool :=
  if String.eqb pattern "" then false
  else if negb (endsWithSlash pattern) then String.eqb pattern path
  else String.prefix pattern path.

(** One turn of the loop of [match]: among the patterns that match, the
    longest stays. *)
Definition longer (path : string) (best : option (Handler * string))
    (entry : string * Handler) : option (Handler * string) :=
  let '(k, h) := entry in
  if negb (pathMatch k path) then best
  else match best with
       | None => Some (h, k)
       | Some (_, pattern) =>
           if (String.length pattern <? String.length k)%nat
           then Some (h, k) else best
       end.

(** [match]: the pattern that is the path itself, or else the longest one
    that matches it. *)
Definition match_ (ρ : RangeOrder) (mx : ServeMux) (path : string)
  : option (Handler * string) :=
  match m mx !! path with
  | Some h => Some (h, path)
  | None => foldl (longer path) None (range ρ (m mx))
  end.

(** [handler]: patterns with a host go first, patterns without follow, and
    the not-found handler closes. *)
Definition handler (ρ : RangeOrder) (mx : ServeMux) (host path : string)
  : Handler * string :=
  let found := if hosts mx then match_ ρ mx (host +:+ path) else None in
  let found := match found with
               | Some _ => found
               | None => match_ ρ mx path
               end in
  default (to_NotFound, "") found.

End mux.

(** [router] of [main]: one pattern. *)
Definition router : option mux.ServeMux :=
  mux.Handle "/" to_counterHandler mux.NewServeMux.

(** [adminRouter] of [initAdminServer]: four patterns. *)
Definition adminRouter : option mux.ServeMux :=
  mx ← mux.Handle "/metrics" to_metrics mux.NewServeMux;
  mx ← mux.Handle "/live" to_LiveEndpoint mx;
  mx ← mux.Handle "/ready" to_ReadyEndpoint mx;
  mux.Handle "/about" to_aboutHandler mx.

(** Under the prefix and the namespace: what every storage key starts
    with. *)
Definition namespace (config : Config) : string :=
  RedisPrefix config +:+ "." +:+ BaseLabel +:+ ".".

(** * Proofs *)

(** ** Strings *)

Lemma app_nil_l (s : string) : "" +:+ s = s.
Proof. reflexivity. Qed.

Lemma app_cons (c : ascii) (s t : string) :
  String c s +:+ t = String c (s +:+ t).
Proof. reflexivity. Qed.

Lemma app_nil_r (s : string) : s +:+ "" = s.
Proof. induction s as [|c s IH]; [done|]. by rewrite app_cons, IH. Qed.

Lemma app_assoc_s (s t u : string) : (s +:+ t) +:+ u = s +:+ t +:+ u.
Proof. induction s as [|c s IH]; [done|]. by rewrite !app_cons, IH. Qed.

Lemma app_eq_nil (s t : string) : s +:+ t = "" → s = "" ∧ t = "".
Proof. destruct s; [done|]. rewrite app_cons. discriminate. Qed.

Lemma app_eq_cons (s t : string) (c : ascii) (u : string) :
  s +:+ t = String c u →
  (s = "" ∧ t = String c u) ∨ (∃ s', s = String c s' ∧ u = s' +:+ t).
Proof.
  destruct s as [|x s]; [by left|].
  rewrite app_cons. intros [= -> <-]. right. by exists s.
Qed.

(** ** The matcher is the matching relation *)

Section regexp_facts.
Import regexp.

Lemma nullable_spec r : nullable r = true ↔ matches r "".
Proof.
  split.
  - induction r; simpl; intros Hn; try discriminate.
    + constructor.
    + apply andb_true_iff in Hn as [Ha Hb].
      change "" with ("" +:+ ""). constructor; auto.
    + apply orb_true_iff in Hn as [Ha|Hb];
        [apply m_alt_l | apply m_alt_r]; auto.
    + constructor.
    + change "" with ("" +:+ ""). constructor; [auto | constructor].
  - intros H. remember "" as e eqn:He.
    induction H; simpl; subst; try done.
    + apply app_eq_nil in He as [-> ->]. by rewrite IHmatches1, IHmatches2.
    + by rewrite IHmatches.
    + rewrite IHmatches by done. apply orb_true_r.
    + apply app_eq_nil in He as [-> ->]. auto.
Qed.

Lemma deriv_complete c r s : matches r (String c s) → matches (deriv c r) s.
Proof.
  intros H. remember (String c s) as cs eqn:E. revert c s E.
  induction H as
    [ | x ranges Hx | a b s1 t1 Ha IHa Hb IHb | a b s1 Ha IHa | a b s1 Hb IHb
    | r | r s1 t1 Hr IHr Hs IHs | r s1 t1 Hr IHr Hs IHs ];
    intros c s E; simpl.
  - discriminate.
  - injection E as -> <-. rewrite Hx. constructor.
  - apply app_eq_cons in E as [[-> ->]|(s' & -> & ->)].
    + apply nullable_spec in Ha. rewrite Ha. apply m_alt_r. by apply IHb.
    + assert (matches (OpConcat (deriv c a) b) (s' +:+ t1))
        by (constructor; auto).
      destruct (nullable a); [by apply m_alt_l | done].
  - apply m_alt_l. by apply IHa.
  - apply m_alt_r. by apply IHb.
  - discriminate.
  - apply app_eq_cons in E as [[-> ->]|(s' & -> & ->)].
    + by apply IHs.
    + constructor; auto.
  - apply app_eq_cons in E as [[-> ->]|(s' & -> & ->)].
    + by apply (IHs c s).
    + constructor; auto.
Qed.

Lemma deriv_sound c r s : matches (deriv c r) s → matches r (String c s).
Proof.
  revert s. induction r as [ | | ranges | a IHa b IHb | a IHa b IHb | a IHa | a IHa ];
    simpl; intros s H.
  - inversion H.
  - inversion H.
  - destruct (in_class c ranges) eqn:Hc; inversion H; subst.
    by constructor.
  - assert (Hcat : ∀ u, matches (OpConcat (deriv c a) b) u →
                        matches (OpConcat a b) (String c u)).
    { intros u Hu. inversion Hu; subst.
      rewrite <- app_cons. constructor; auto. }
    destruct (nullable a) eqn:Hn; [|by apply Hcat].
    inversion H; subst; [by apply Hcat|].
    rewrite <- (app_nil_l (String c s)). constructor; [|by auto].
    by apply nullable_spec.
  - inversion H; subst; [apply m_alt_l | apply m_alt_r]; auto.
  - inversion H; subst. rewrite <- app_cons. constructor; auto.
  - inversion H; subst. rewrite <- app_cons. constructor; auto.
Qed.

Lemma match_prefix_spec r s :
  match_prefix r s = true ↔ ∃ p q, s = p +:+ q ∧ matches r p.
Proof.
  revert r. induction s as [|c s IH]; intros r; simpl.
  - rewrite orb_false_r, nullable_spec. split.
    + intros H. by exists "", "".
    + intros (p & q & E & H). symmetry in E.
      by apply app_eq_nil in E as [-> ->].
  - rewrite orb_true_iff, nullable_spec, IH. split.
    + intros [H|(p & q & -> & H)].
      * by exists "", (String c s).
      * exists (String c p), q. split; [done|]. by apply deriv_sound.
    + intros (p & q & E & H). symmetry in E.
      apply app_eq_cons in E as [[-> ->]|(p' & -> & ->)]; [by left|].
      right. exists p', q. split; [done|]. by apply deriv_complete.
Qed.

(** The search finds a match exactly when some piece of the input is one. *)
Lemma MatchRegexp_spec r b :
  MatchRegexp r b = true ↔ ∃ pre m post, b = pre +:+ m +:+ post ∧ matches r m.
Proof.
  induction b as [|c b IH]; cbn [MatchRegexp].
  - rewrite orb_false_r, match_prefix_spec. split.
    + intros (p & q & E & H). by exists "", p, q.
    + intros (pre & m & post & E & H). symmetry in E.
      apply app_eq_nil in E as [-> E]. by exists m, post.
  - rewrite orb_true_iff, match_prefix_spec, IH. split.
    + intros [(p & q & E & H)|(pre & m & post & -> & H)].
      * by exists "", p, q.
      * by exists (String c pre), m, post.
    + intros (pre & m & post & E & H). symmetry in E.
      apply app_eq_cons in E as [[-> E]|(pre' & -> & ->)].
      * left. by exists m, post.
      * right. by exists pre', m, post.
Qed.

End regexp_facts.

(** ** The label pattern *)

Section label_pattern.
Import regexp.

Lemma in_class_alnum c : in_class c labelClass = alnum c.
Proof.
  unfold in_class, labelClass, alnum, in_range, strings.between. simpl.
  by rewrite orb_false_r, orb_assoc.
Qed.

Lemma match_prefix_dead x s : match_prefix (OpConcat OpNoMatch x) s = false.
Proof. induction s as [|c s IH]; simpl; [done|apply IH]. Qed.

Lemma match_prefix_live x s :
  match_prefix (OpConcat OpEmptyMatch (OpStar x)) s = true.
Proof. by destruct s. Qed.

Lemma match_prefix_labelPattern c s :
  match_prefix labelPattern (String c s) = alnum c.
Proof.
  unfold labelPattern.
  cbn [match_prefix nullable deriv orb]. rewrite in_class_alnum.
  destruct (alnum c); [apply match_prefix_live | apply match_prefix_dead].
Qed.

(** The search for the pattern is the search for one alphanumeric byte. *)
Lemma MatchRegexp_labelPattern b : MatchRegexp labelPattern b = hasAlnum b.
Proof.
  induction b as [|c b IH]; [done|].
  cbn [MatchRegexp hasAlnum]. by rewrite match_prefix_labelPattern, IH.
Qed.

Lemma matches_class ranges s :
  matches (OpCharClass ranges) s →
  ∃ c, s = String c "" ∧ in_class c ranges = true.
Proof. intros H. inversion H; subst. eauto. Qed.

Lemma star_class_allAlnum s :
  matches (OpStar (OpCharClass labelClass)) s ↔ allAlnum s = true.
Proof.
  split.
  - intros H. remember (OpStar (OpCharClass labelClass)) as r eqn:E.
    induction H; try discriminate; [done|].
    injection E as ->. apply matches_class in H as (c & -> & Hc).
    rewrite app_cons, app_nil_l. simpl.
    rewrite <- in_class_alnum, Hc. by apply IHmatches2.
  - induction s as [|c s IH]; simpl; intros H; [constructor|].
    apply andb_true_iff in H as [Hc Hs].
    change (String c s) with (String c "" +:+ s).
    constructor; [|by auto]. constructor. by rewrite in_class_alnum.
Qed.

(** What matches the pattern as a whole: a non-empty run of alphanumeric
    bytes. *)
Lemma labelPattern_matches run :
  matches labelPattern run ↔ run ≠ "" ∧ allAlnum run = true.
Proof.
  unfold labelPattern. split.
  - intros H. inversion H as [ | | | | | | |r s t Hs Ht]; subst.
    apply matches_class in Hs as (c & -> & Hc).
    rewrite app_cons, app_nil_l. split; [done|].
    simpl. rewrite <- in_class_alnum, Hc. by apply star_class_allAlnum.
  - intros [Hne H]. destruct run as [|c s]; [done|].
    simpl in H. apply andb_true_iff in H as [Hc Hs].
    change (String c s) with (String c "" +:+ s).
    constructor; [|by apply star_class_allAlnum].
    constructor. by rewrite in_class_alnum.
Qed.

Lemma hasAlnum_run b :
  hasAlnum b = true ↔
  ∃ pre run post,
    b = pre +:+ run +:+ post ∧ run ≠ "" ∧ allAlnum run = true.
Proof.
  rewrite <- MatchRegexp_labelPattern, MatchRegexp_spec.
  by setoid_rewrite labelPattern_matches.
Qed.

End label_pattern.

(** ** The replies *)

Lemma errorReply_status m : http.StatusCode (errorReply m) = 400.
Proof. reflexivity. Qed.

Lemma numberReply_status v : http.StatusCode (numberReply v) = 200.
Proof. reflexivity. Qed.

Lemma errorReply_body m :
  http.Body (errorReply m) =
  [http.Fprintln (http.string_of (Some (json.of_ErrorResponse {| Error := m |})))].
Proof. reflexivity. Qed.

Lemma numberReply_body v :
  http.Body (numberReply v) =
  [http.Write_bytes (Some (json.of_NumberResponse {| Value := v |}))].
Proof. reflexivity. Qed.

(** ** [counterHandler], exit by exit *)

(** The four exits of the handler, on a fresh writer: what is replied, and
    the store afterwards. *)
Lemma serveOne_cases config env r srv :
  serveOne config env r srv =
  match parsed r with
  | (_, Some err) => (errorReply (http.FormError_Error err), srv)
  | (form, None) =>
      match Decode_CounterRequest paramDecoder (order env)
              {| Label := "default" |} form with
      | (_, Some err) =>
          (errorReply (schema.MultiError_Error (order env) err), srv)
      | (params, None) =>
          if regexp.MatchRegexp labelPattern (Label params) then
            match redis.Incr (link env) (getKey config (Label params)) srv with
            | ((_, Some err), srv') =>
                (errorReply (redis.Error_Error err), srv')
            | ((val, None), srv') => (numberReply val, srv')
            end
          else (errorReply (Text "invalid label"), srv)
      end
  end.
Proof.
  unfold serveOne, counterHandler, parsed.
  destruct (http.ParseForm r) as [r1 [e|]]; [done|].
  destruct (Decode_CounterRequest _ _ _ _) as [params [e|]]; [done|].
  unfold regexp_Match.
  destruct (regexp.MatchRegexp labelPattern (Label params)); simpl; [|done].
  destruct (redis.Incr _ _ _) as [[val [e|]] srv']; done.
Qed.

Lemma boundLabel_parsed ρ r :
  boundLabel ρ r =
  match parsed r with
  | (_, Some _) => None
  | (form, None) =>
      match Decode_CounterRequest paramDecoder ρ {| Label := "default" |} form with
      | (_, Some _) => None
      | (params, None) => Some (Label params)
      end
  end.
Proof.
  unfold boundLabel, parsed. by destruct (http.ParseForm r) as [r1 [e|]].
Qed.

(** The writer plays no part in what happens to the store. *)
Lemma counterHandler_store config env w r srv :
  (counterHandler config env w r srv).2 = (serveOne config env r srv).2.
Proof.
  unfold serveOne, counterHandler.
  destruct (http.ParseForm r) as [r1 [e|]]; [done|].
  destruct (Decode_CounterRequest _ _ _ _) as [params [e|]]; [done|].
  destruct (regexp_Match _ _) as [valid e].
  destruct (negb valid || bool_decide (e ≠ None)); [done|].
  destruct (redis.Incr _ _ _) as [[val [e'|]] srv']; done.
Qed.

(** ** The store *)

Lemma Incr_issued link key srv :
  redis.issued (redis.Incr link key srv).2 = redis.INCR key :: redis.issued srv.
Proof.
  unfold redis.Incr.
  destruct link; [| done |]; by destruct (redis.incr key (redis.db srv)).
Qed.

(** An INCR that succeeds went through, found nothing or an integer below
    the largest one, and left the next integer behind. *)
Lemma Incr_ok link key srv val srv' :
  redis.Incr link key srv = ((val, None), srv') →
  link = redis.Connected ∧
  redis.db srv' = <[key := redis.Integer val]> (redis.db srv) ∧
  (redis.db srv !! key = None ∧ val = 1 ∨
   redis.db srv !! key = Some (redis.Integer (val - 1))).
Proof.
  unfold redis.Incr, redis.incr. destruct link.
  - destruct (redis.db srv !! key) as [[n| |]|] eqn:Hk.
    + case_decide; [done|]. intros [= <- <-]. simpl. repeat split.
      right. f_equal. f_equal. lia.
    + done.
    + done.
    + intros [= <- <-]. simpl. repeat split. by left.
  - done.
  - by destruct (redis.db srv !! key) as [[n| |]|]; try case_decide.
Qed.

(** A request that is answered 200 went through every check and got its
    number from the store. *)
Lemma serveOne_ok config env r srv :
  http.StatusCode (serveOne config env r srv).1 = 200 →
  ∃ label val srv',
    boundLabel (order env) r = Some label ∧
    regexp.MatchRegexp labelPattern label = true ∧
    redis.Incr (link env) (getKey config label) srv = ((val, None), srv') ∧
    serveOne config env r srv = (numberReply val, srv').
Proof.
  rewrite serveOne_cases, boundLabel_parsed.
  destruct (parsed r) as [form [e|]]; [done|].
  destruct (Decode_CounterRequest _ _ _ _) as [params [e|]]; [done|].
  destruct (regexp.MatchRegexp labelPattern (Label params)) eqn:Hm; [|done].
  destruct (redis.Incr _ _ _) as [[val [e|]] srv'] eqn:Hi; [done|].
  intros _. by exists (Label params), val, srv'.
Qed.

(** ** Counting *)

Lemma serve_cons config env r rest srv :
  serve config ((env, r) :: rest) srv =
  let '(resp, srv1) := serveOne config env r srv in
  let '(resps, srv2) := serve config rest srv1 in
  (resp :: resps, srv2).
Proof. reflexivity. Qed.

Lemma serve_length config reqs srv :
  List.length (serve config reqs srv).1 = List.length reqs.
Proof.
  revert srv. induction reqs as [|[env r] rest IH]; intros srv; [done|].
  rewrite serve_cons. destruct (serveOne config env r srv) as [resp srv1].
  specialize (IH srv1). destruct (serve config rest srv1) as [resps srv2].
  simpl in *. by rewrite IH.
Qed.

Lemma serve_counts config label reqs : ∀ srv (k : Z),
  (0 ≤ k)%Z →
  stands_at config label k srv →
  Forall (λ j : World * http.Request, boundLabel (order j.1) j.2 = Some label)
    reqs →
  Forall (λ resp, http.StatusCode resp = 200) (serve config reqs srv).1 →
  ∀ (n : nat) resp,
    (serve config reqs srv).1 !! n = Some resp →
    resp = numberReply (k + Z.of_nat n + 1).
Proof.
  induction reqs as [|[env r] rest IH]; intros srv k Hk Hat Hreqs Hok n resp;
    [done|].
  rewrite serve_cons in Hok |- *.
  destruct (serveOne config env r srv) as [resp1 srv1] eqn:H1.
  specialize (IH srv1 (k + 1)).
  destruct (serve config rest srv1) as [resps srv2]. simpl in *.
  apply Forall_cons in Hok as [Hok1 Hok], Hreqs as [Hr Hreqs].
  pose proof (serveOne_ok config env r srv) as Hone.
  rewrite H1 in Hone. destruct (Hone Hok1) as (l & val & srv' & Hl & _ & Hi & E).
  simpl in Hr. rewrite Hr in Hl. injection Hl as <-. injection E as -> ->.
  apply Incr_ok in Hi as (_ & Hdb & Hval).
  assert (val = k + 1) as ->.
  { unfold stands_at in Hat. destruct Hval as [[Hnone ->]|Hsome].
    - rewrite Hnone in Hat. case_decide; [lia | done].
    - rewrite Hsome in Hat. case_decide; [done|]. injection Hat. lia. }
  destruct n as [|n]; simpl.
  - intros [= <-]. f_equal. lia.
  - intros Hn. rewrite (IH ltac:(lia)) with (n := n) (resp := resp); try done.
    + f_equal. lia.
    + unfold stands_at. rewrite Hdb, lookup_insert_eq. case_decide; [lia|done].
Qed.

(** C1.  For a label [label] whose storage key is absent, a sequence of
    requests that all ask for [label] and are all answered 200 gets the
    values 1, 2, ..., N in order: the N-th reply is the JSON encoding of a
    [NumberResponse] whose value is N. *)
Theorem counter_counts_from_one config label reqs srv (n : nat) resp :
  redis.db srv !! getKey config label = None →
  Forall (λ j : World * http.Request, boundLabel (order j.1) j.2 = Some label)
    reqs →
  Forall (λ resp, http.StatusCode resp = 200) (serve config reqs srv).1 →
  (serve config reqs srv).1 !! n = Some resp →
  http.StatusCode resp = 200 ∧
  http.Body resp =
    [http.Write_bytes
       (Some (json.of_NumberResponse {| Value := Z.of_nat n + 1 |}))].
Proof.
  intros Habsent Hreqs Hok Hn.
  rewrite (serve_counts config label reqs srv 0 ltac:(lia) Habsent Hreqs Hok
             n resp Hn).
  rewrite numberReply_status, numberReply_body. by rewrite Z.add_0_l.
Qed.

(** The test of the repository: ten times [GET /?label=foobar] on a key
    that was deleted, the tenth reply carrying the value 10. *)
Lemma counter_counts_from_one_witness :
  let reqs := replicate 10 (calm, http.NewRequest "GET" "label=foobar") in
  ∃ resp,
    (serve defaultConfig reqs empty_store).1 !! 9%nat = Some resp ∧
    http.StatusCode resp = 200 ∧
    http.Body resp =
      [http.Write_bytes (Some (json.of_NumberResponse {| Value := 10 |}))].
Proof.
  intros reqs.
  exists (numberReply 10). split; [vm_compute; reflexivity|].
  apply (counter_counts_from_one defaultConfig "foobar" reqs empty_store 9).
  - vm_compute. reflexivity.
  - repeat constructor.
  - vm_compute. repeat constructor.
  - vm_compute. reflexivity.
Defined.

(** ** [Decode], whatever the order of its loop *)

Section decode_facts.
Variables (d : schema.Decoder) (alias : string).

Lemma visit_errors (l : list (string * list string)) : ∀ field errors k,
  (foldl (schema.visit d alias) (field, errors) l).2 !! k =
  if decide (k ∈ l.*1 ∧ schema.parsePath alias k = false
             ∧ schema.ignoreUnknownKeys d = false)
  then Some (schema.MkUnknownKeyError k)
  else errors !! k.
Proof.
  induction l as [|[path values] l IH]; intros field errors k.
  { cbn [foldl snd]. case_decide as H; [|done]. destruct H as [H _].
    by apply elem_of_nil in H. }
  rewrite fmap_cons. cbn [foldl schema.visit fst].
  assert (∀ field' errors',
    (errors' !! k = errors !! k ∨
     (path = k ∧ schema.parsePath alias k = false
      ∧ schema.ignoreUnknownKeys d = false
      ∧ errors' !! k = Some (schema.MkUnknownKeyError k))) →
    (path = k → schema.parsePath alias k = false →
     schema.ignoreUnknownKeys d = false →
     errors' !! k = Some (schema.MkUnknownKeyError k)) →
    (foldl (schema.visit d alias) (field', errors') l).2 !! k =
    if decide (k ∈ path :: l.*1 ∧ schema.parsePath alias k = false
               ∧ schema.ignoreUnknownKeys d = false)
    then Some (schema.MkUnknownKeyError k)
    else errors !! k) as Hstep.
  { intros field' errors' Hsame Hnew. rewrite IH.
    destruct (decide (k ∈ l.*1 ∧ _)) as [(Hin & Hp & Hi)|Hn],
             (decide (k ∈ path :: l.*1 ∧ _)) as [(Hin' & Hp' & Hi')|Hn'];
      try done.
    - exfalso. apply Hn'. split; [by apply elem_of_cons; right|done].
    - apply elem_of_cons in Hin' as [->|Hin']; [by apply Hnew|].
      exfalso. by apply Hn.
    - destruct Hsame as [->|(-> & Hp & Hi & _)]; [done|].
      exfalso. apply Hn'. split; [by apply elem_of_cons; left|done]. }
  destruct (schema.parsePath alias path) eqn:Hp.
  - apply Hstep; [by left|]. intros ->. congruence.
  - destruct (schema.ignoreUnknownKeys d) eqn:Hi; cbn [negb].
    + apply Hstep; [by left|]. by intros _ _ ?.
    + apply Hstep.
      * destruct (decide (path = k)) as [->|Hne].
        -- right. by rewrite lookup_insert_eq.
        -- left. by rewrite lookup_insert_ne.
      * intros -> _ _. by rewrite lookup_insert_eq.
Qed.

Lemma Decode_errors ρ field src :
  (foldl (schema.visit d alias) (field, ∅) (range ρ src)).2 = unknownKeys d alias src.
Proof.
  apply map_eq. intros k. rewrite visit_errors, lookup_empty.
  unfold unknownKeys.
  assert (k ∈ (range ρ src).*1 ↔ is_Some (src !! k)) as Hdom.
  { rewrite (range_perm ρ _ src), list_elem_of_fmap. split.
    - intros ([k' vs] & -> & Hin). apply elem_of_map_to_list in Hin.
      by exists vs.
    - intros [vs Hk]. exists (k, vs). split; [done|].
      by apply elem_of_map_to_list. }
  destruct (schema.ignoreUnknownKeys d).
  { rewrite lookup_empty. case_decide; [by destruct_and!|done]. }
  rewrite map_lookup_imap.
  case_decide as H.
  - destruct H as (Hin & Hp & _). apply Hdom in Hin as [vs ->]. simpl.
    by rewrite Hp.
  - destruct (src !! k) as [vs|] eqn:Hk; simpl; [|done].
    destruct (schema.parsePath alias k) eqn:Hp; [done|].
    exfalso. apply H. split_and!; try done. apply Hdom. by eexists.
Qed.

(** The field keeps a value [x] that every value list naming the field
    decodes to. *)
Lemma visit_field_stable x (l : list (string * list string)) : ∀ errors,
  (∀ k vs, (k, vs) ∈ l → schema.parsePath alias k = true →
           schema.decode d x vs = x) →
  (foldl (schema.visit d alias) (x, errors) l).1 = x.
Proof.
  induction l as [|[path values] l IH]; intros errors H; [done|]. simpl.
  destruct (schema.parsePath alias path) eqn:Hp.
  - rewrite (H path values); [|set_solver|done]. apply IH.
    intros k vs ?. apply H. set_solver.
  - destruct (negb (schema.ignoreUnknownKeys d)); apply IH;
      intros k vs ?; apply H; set_solver.
Qed.

Lemma Decode_stable ρ x src :
  (∀ k vs, src !! k = Some vs → schema.parsePath alias k = true →
           schema.decode d x vs = x) →
  schema.Decode d ρ alias x src =
  (x, if (0 <? size (unknownKeys d alias src))%nat then Some (unknownKeys d alias src)
      else None).
Proof.
  intros H. unfold schema.Decode.
  pose proof (Decode_errors ρ x src) as He.
  pose proof (visit_field_stable x (range ρ src) ∅) as Hf.
  destruct (foldl _ _ _) as [field errors]. simpl in *. subst errors.
  rewrite Hf; [by destruct (0 <? _)%nat|].
  intros k vs Hin. apply H. apply elem_of_map_to_list.
  by rewrite <- (range_perm ρ _ src).
Qed.

(** Any key that does not name the field makes [Decode] fail, unless
    unknown keys are ignored. *)
Lemma Decode_unknown ρ field src k :
  schema.ignoreUnknownKeys d = false →
  is_Some (src !! k) → schema.parsePath alias k = false →
  ∃ errors, (schema.Decode d ρ alias field src).2 = Some errors
            ∧ errors = unknownKeys d alias src
            ∧ errors !! k = Some (schema.MkUnknownKeyError k).
Proof.
  intros Hi [vs Hk] Hp. unfold schema.Decode.
  pose proof (Decode_errors ρ field src) as He.
  destruct (foldl _ _ _) as [field' errors]. simpl in *. subst errors.
  assert (unknownKeys d alias src !! k = Some (schema.MkUnknownKeyError k)) as Hl.
  { unfold unknownKeys. rewrite Hi, map_lookup_imap, Hk. simpl. by rewrite Hp. }
  assert (0 < size (unknownKeys d alias src))%nat as Hs.
  { destruct (decide (size (unknownKeys d alias src) = 0%nat)) as [Hz|]; [|lia].
    apply map_size_empty_iff in Hz. rewrite Hz in Hl. by rewrite lookup_empty in Hl. }
  apply Nat.ltb_lt in Hs. rewrite Hs. eauto.
Qed.

End decode_facts.

(** ** Validation *)

Lemma alnumRunIn_hasAlnum b : alnumRunIn b ↔ hasAlnum b = true.
Proof. symmetry. apply hasAlnum_run. Qed.

(** C2.  A request whose label is [label] passes validation, and so gets
    its INCR issued, exactly when [label] has a run of alphanumeric bytes
    somewhere in it (the search for [a-zA-Z0-9]+ is not anchored); when it
    has none, the reply is 400 with the error "invalid label" and the store
    is as before. *)
Theorem label_accepted_iff_alnum_run config env r srv label :
  boundLabel (order env) r = Some label →
  ((regexp_Match labelPattern label).1 = true ↔ alnumRunIn label) ∧
  (redis.issued (serveOne config env r srv).2 =
     redis.INCR (getKey config label) :: redis.issued srv
   ↔ alnumRunIn label) ∧
  (¬ alnumRunIn label →
   serveOne config env r srv = (errorReply (Text "invalid label"), srv) ∧
   http.StatusCode (serveOne config env r srv).1 = 400).
Proof.
  intros Hl. rewrite alnumRunIn_hasAlnum. unfold regexp_Match. simpl.
  rewrite MatchRegexp_labelPattern. split; [done|].
  rewrite serveOne_cases. rewrite boundLabel_parsed in Hl.
  destruct (parsed r) as [form [e|]]; [done|].
  destruct (Decode_CounterRequest _ _ _ _) as [params [e|]]; [done|].
  injection Hl as Hl. rewrite Hl, MatchRegexp_labelPattern.
  destruct (hasAlnum label).
  - split; [|done]. split; [done|]. intros _.
    pose proof (Incr_issued (link env) (getKey config label) srv) as Hi.
    by destruct (redis.Incr _ _ _) as [[val [e|]] srv'].
  - split; [|done]. split; [|done]. simpl. intros H.
    apply (f_equal List.length) in H. simpl in H. lia.
Qed.

(** The label [!!!abc!!!] is accepted. *)
Lemma label_accepted_iff_alnum_run_witness :
  let r := http.NewRequest "GET" "label=!!!abc!!!" in
  boundLabel ascending r = Some "!!!abc!!!" ∧
  alnumRunIn "!!!abc!!!" ∧
  (serveOne defaultConfig calm r empty_store).1 = numberReply 1.
Proof.
  intros r.
  assert (boundLabel (order calm) r = Some "!!!abc!!!") as Hl
    by (vm_compute; reflexivity).
  destruct (label_accepted_iff_alnum_run defaultConfig calm r empty_store
              "!!!abc!!!" Hl) as (Hacc & _ & _).
  split; [exact Hl|]. split.
  - apply Hacc. vm_compute. reflexivity.
  - vm_compute. reflexivity.
Defined.

(** ** The effect on the store *)

(** C3.  One call of the handler issues at most one INCR: exactly one, for
    the key of its label, when parsing, decoding and validation succeed, and
    none, the store being left as it was, when one of them fails. *)
Theorem at_most_one_increment config env w r srv :
  let srv' := (counterHandler config env w r srv).2 in
  (redis.issued srv' = redis.issued srv
   ∨ ∃ key, redis.issued srv' = redis.INCR key :: redis.issued srv) ∧
  match boundLabel (order env) r with
  | Some label =>
      if regexp.MatchRegexp labelPattern label
      then redis.issued srv' = redis.INCR (getKey config label) :: redis.issued srv
      else srv' = srv
  | None => srv' = srv
  end.
Proof.
  intros srv'. subst srv'. rewrite counterHandler_store.
  rewrite serveOne_cases, boundLabel_parsed.
  destruct (parsed r) as [form [e|]]; [by split; [left|]|].
  destruct (Decode_CounterRequest _ _ _ _) as [params [e|]];
    [by split; [left|]|].
  destruct (regexp.MatchRegexp labelPattern (Label params));
    [|by split; [left|]].
  pose proof (Incr_issued (link env) (getKey config (Label params)) srv) as Hi.
  destruct (redis.Incr _ _ _) as [[val [e|]] srv']; simpl in *;
    (split; [right; eauto | done]).
Qed.

(** ** Errors of the store *)

(** C6.  The handler only ever answers 200 or 400; when validation has
    passed and the INCR fails, it answers 400 with the JSON encoding of an
    [ErrorResponse] that carries the text of the store's error; and a
    request that fails parsing, decoding or validation is answered 400. *)
Theorem store_error_is_400 config env r srv :
  let resp := (serveOne config env r srv).1 in
  (http.StatusCode resp = 200 ∨ http.StatusCode resp = 400) ∧
  (∀ label val err srv',
     boundLabel (order env) r = Some label →
     regexp.MatchRegexp labelPattern label = true →
     redis.Incr (link env) (getKey config label) srv = ((val, Some err), srv') →
     http.StatusCode resp = 400 ∧
     http.Body resp =
       [http.Fprintln (http.string_of (Some (json.of_ErrorResponse
          {| Error := redis.Error_Error err |})))]) ∧
  (match boundLabel (order env) r with
   | Some label => regexp.MatchRegexp labelPattern label = false
   | None => True
   end → http.StatusCode resp = 400).
Proof.
  intros resp. subst resp. rewrite serveOne_cases, boundLabel_parsed.
  destruct (parsed r) as [form [e|]]; [by split_and!; [right| |]|].
  destruct (Decode_CounterRequest _ _ _ _) as [params [e|]];
    [by split_and!; [right| |]|].
  destruct (regexp.MatchRegexp labelPattern (Label params)) eqn:Hm.
  - destruct (redis.Incr _ _ _) as [[val [e|]] srv1] eqn:Hi; simpl.
    + split_and!; [by right| |done].
      intros label val' err srv' [= <-] _. rewrite Hi. by intros [= _ <- _].
    + split_and!; [by left| |done].
      intros label val' err srv' [= <-] _. by rewrite Hi.
  - split_and!; [by right| |done].
    intros label val' err srv' [= <-] Ht. congruence.
Qed.

(** A store that cannot be reached: the reply is 400 and carries the
    reason. *)
Lemma store_error_is_400_witness :
  let env := {| order := ascending;
                link := redis.Unreachable "dial tcp: connection refused" |} in
  let resp :=
    (serveOne defaultConfig env (http.NewRequest "GET" "label=foobar") empty_store).1 in
  http.StatusCode resp = 400 ∧
  http.Body resp =
    [http.Fprintln (http.string_of (Some (json.of_ErrorResponse
       {| Error := Text "dial tcp: connection refused" |})))].
Proof.
  intros env resp.
  apply (proj1 (proj2 (store_error_is_400 defaultConfig env
                         (http.NewRequest "GET" "label=foobar") empty_store))
           "foobar" 0 (redis.MkError "dial tcp: connection refused")
           {| redis.db := ∅;
              redis.issued := [redis.INCR "counter.next.foobar"] |}).
  - vm_compute. reflexivity.
  - vm_compute. reflexivity.
  - vm_compute. reflexivity.
Defined.

(** ** Parameters the struct has no field for *)

Lemma Decode_CounterRequest_unknown ρ params form k :
  is_Some (form !! k) → namesLabel k = false →
  ∃ errors,
    (Decode_CounterRequest paramDecoder ρ params form).2 = Some errors
    ∧ errors !! k = Some (schema.MkUnknownKeyError k).
Proof.
  intros Hk Hp. unfold Decode_CounterRequest.
  destruct (Decode_unknown paramDecoder "label" ρ (Label params) form k)
    as (errors & He & _ & Hl); [done..|].
  destruct (schema.Decode _ _ _ _ _) as [label err]. simpl in *.
  by exists errors.
Qed.

(** C4, as the code has it.  Unknown parameters are not ignored: when the
    parameters parse and one of them has a name that does not stand for the
    field [Label], the reply is 400, its error is the text of the decoder's
    errors, among them the one for that name, and the store is as before. *)
Theorem unknown_parameter_is_error config env r srv form k :
  parsed r = (form, None) →
  is_Some (form !! k) →
  namesLabel k = false →
  ∃ errors,
    errors !! k = Some (schema.MkUnknownKeyError k) ∧
    serveOne config env r srv =
      (errorReply (schema.MultiError_Error (order env) errors), srv) ∧
    http.StatusCode (serveOne config env r srv).1 = 400.
Proof.
  intros Hr Hk Hp. rewrite serveOne_cases, Hr.
  destruct (Decode_CounterRequest_unknown (order env)
              {| Label := "default" |} form k Hk Hp) as (errors & He & Hl).
  destruct (Decode_CounterRequest _ _ _ _) as [params err]. simpl in He.
  subst err. by exists errors.
Qed.

Lemma unknown_parameter_is_error_witness :
  ∃ errors,
    errors !! "foo" = Some (schema.MkUnknownKeyError "foo") ∧
    serveOne defaultConfig calm (http.NewRequest "GET" "label=abc&foo=bar")
      empty_store =
      (errorReply (schema.MultiError_Error ascending errors), empty_store) ∧
    http.StatusCode
      (serveOne defaultConfig calm (http.NewRequest "GET" "label=abc&foo=bar")
         empty_store).1 = 400.
Proof.
  apply (unknown_parameter_is_error defaultConfig calm
           (http.NewRequest "GET" "label=abc&foo=bar") empty_store
           {[ "label" := ["abc"]; "foo" := ["bar"] ]} "foo").
  - vm_compute. reflexivity.
  - vm_compute. eauto.
  - vm_compute. reflexivity.
Defined.

(** C4, as the claim has it, fails: [GET /?label=abc&foo=bar] is answered
    400 with the error of the unknown key [foo] and nothing is incremented,
    where [GET /?label=abc] is answered 200 with the value 1. *)
Lemma unknown_parameter_rejected :
  serveOne defaultConfig calm (http.NewRequest "GET" "label=abc&foo=bar") empty_store
  = (errorReply (Quoting "schema: invalid path " "foo" ""), empty_store)
  ∧ http.StatusCode (errorReply (Quoting "schema: invalid path " "foo" "")) = 400
  ∧ (serveOne defaultConfig calm (http.NewRequest "GET" "label=abc") empty_store).1
    = numberReply 1.
Proof. vm_compute. done. Qed.

(** ** Storage keys *)

Lemma getKey_inj config l1 l2 : getKey config l1 = getKey config l2 → l1 = l2.
Proof.
  unfold getKey. intros H.
  by repeat apply (inj (String.app _)) in H.
Qed.

(** C5, as the code has it.  Validation looks for an alphanumeric byte and
    nothing else, so a label with the separator in it is accepted like any
    other; the prefix being the same for all of them, two different labels
    still never get the same storage key. *)
Theorem distinct_labels_distinct_keys config l1 l2 :
  l1 ≠ l2 →
  (regexp_Match labelPattern l1).1 = hasAlnum l1 ∧
  getKey config l1 ≠ getKey config l2.
Proof.
  intros Hne. split.
  - apply MatchRegexp_labelPattern.
  - intros H. by apply Hne, (getKey_inj config).
Qed.

Lemma distinct_labels_distinct_keys_witness :
  (regexp_Match labelPattern "a.b").1 = hasAlnum "a.b" ∧
  getKey defaultConfig "a.b" ≠ getKey defaultConfig "a" .
Proof.
  apply (distinct_labels_distinct_keys defaultConfig "a.b" "a").
  discriminate.
Defined.

(** C5, as the claim has it, fails: the label [a.b] contains the separator
    and is accepted; its counter lives under [counter.next.a.b]. *)
Lemma separator_in_accepted_label :
  strings.Contains "." "a.b" = true
  ∧ boundLabel ascending (http.NewRequest "GET" "label=a.b") = Some "a.b"
  ∧ (regexp_Match labelPattern "a.b").1 = true
  ∧ serveOne defaultConfig calm (http.NewRequest "GET" "label=a.b") empty_store
    = (numberReply 1,
       {| redis.db := {[ "counter.next.a.b" := redis.Integer 1 ]};
          redis.issued := [redis.INCR "counter.next.a.b"] |}).
Proof. vm_compute. done. Qed.

(** ** The default label *)

(** Two requests are answered alike when their parameters parse with the
    same error, name the same unknown keys, and neither moves the field
    [Label] away from its default. *)
Lemma serveOne_default config env r r' srv form form' err :
  parsed r = (form, err) →
  parsed r' = (form', err) →
  (∀ k vs, form !! k = Some vs → namesLabel k = true →
           schema.decode paramDecoder "default" vs = "default") →
  (∀ k vs, form' !! k = Some vs → namesLabel k = true →
           schema.decode paramDecoder "default" vs = "default") →
  unknownKeys paramDecoder "label" form = unknownKeys paramDecoder "label" form' →
  serveOne config env r srv = serveOne config env r' srv.
Proof.
  intros Hr Hr' Hf Hf' Hu. rewrite !serveOne_cases, Hr, Hr'.
  destruct err as [e|]; [done|].
  unfold Decode_CounterRequest. cbn [Label].
  rewrite (Decode_stable paramDecoder "label" (order env) "default" form Hf).
  rewrite (Decode_stable paramDecoder "label" (order env) "default" form' Hf').
  by rewrite Hu.
Qed.

Lemma unknownKeys_insert_label d form vs :
  (∀ k, is_Some (form !! k) → k ≠ "label" → namesLabel k = false) →
  unknownKeys d "label" (<["label" := vs]> form) = unknownKeys d "label" form.
Proof.
  intros Hform. unfold unknownKeys.
  destruct (schema.ignoreUnknownKeys d); [done|].
  apply map_eq. intros k. rewrite !map_lookup_imap.
  destruct (decide (k = "label")) as [->|Hne].
  - rewrite lookup_insert_eq. simpl.
    replace (schema.parsePath "label" "label") with true by (vm_compute; done).
    by destruct (form !! "label").
  - by rewrite lookup_insert_ne.
Qed.

(** The label the decoder leaves in [params] when no parameter moves it. *)
Lemma boundLabel_default ρ r form err label :
  parsed r = (form, err) →
  (∀ k vs, form !! k = Some vs → namesLabel k = true →
           schema.decode paramDecoder "default" vs = "default") →
  boundLabel ρ r = Some label → label = "default".
Proof.
  intros Hr Hf. rewrite boundLabel_parsed, Hr.
  destruct err as [e|]; [done|].
  unfold Decode_CounterRequest. cbn [Label].
  rewrite (Decode_stable paramDecoder "label" ρ "default" form Hf).
  destruct (0 <? _)%nat; [done|]. by intros [= <-].
Qed.

(** C7.  When no parameter of a request stands for the field [Label], the
    label the handler goes on with is ["default"], and the request is
    answered, and the store changed, as a request is that has the same
    parameters and [label=default] besides. *)
Theorem absent_label_is_default config env r r' srv form err :
  parsed r = (form, err) →
  (∀ k, is_Some (form !! k) → namesLabel k = false) →
  parsed r' = (<["label" := ["default"]]> form, err) →
  (∀ label, boundLabel (order env) r = Some label → label = "default") ∧
  serveOne config env r srv = serveOne config env r' srv.
Proof.
  intros Hr Habsent Hr'.
  assert (∀ k vs, form !! k = Some vs → namesLabel k = true →
                  schema.decode paramDecoder "default" vs = "default") as Hf.
  { intros k vs Hk Hn. rewrite Habsent in Hn; [done|by eexists]. }
  split.
  - intros label. by apply (boundLabel_default _ r form err).
  - apply (serveOne_default config env r r' srv _ _ err Hr Hr' Hf).
    + intros k vs Hk Hn. destruct (decide (k = "label")) as [->|Hne].
      * rewrite lookup_insert_eq in Hk. by injection Hk as <-.
      * rewrite lookup_insert_ne in Hk by done.
        rewrite Habsent in Hn; [done|by eexists].
    + symmetry. apply unknownKeys_insert_label. intros k Hk _. by apply Habsent.
Qed.

(** [GET /] is answered as [GET /?label=default] is. *)
Lemma absent_label_is_default_witness :
  (∀ label, boundLabel ascending (http.NewRequest "GET" "") = Some label →
            label = "default") ∧
  serveOne defaultConfig calm (http.NewRequest "GET" "") empty_store =
  serveOne defaultConfig calm (http.NewRequest "GET" "label=default") empty_store.
Proof.
  apply (absent_label_is_default defaultConfig calm (http.NewRequest "GET" "")
           (http.NewRequest "GET" "label=default") empty_store ∅ None).
  - vm_compute. reflexivity.
  - intros k [vs Hk]. by rewrite lookup_empty in Hk.
  - vm_compute. reflexivity.
Defined.

(** C10, as the code has it.  A [label] parameter whose value is the empty
    string does not move the field: the decoder skips empty values, the
    label stays ["default"], and the request is answered as one with
    [label=default] in its place. *)
Theorem empty_label_keeps_default config env r r' srv form err vs :
  parsed r = (form, err) →
  form !! "label" = Some vs →
  last vs = Some "" →
  (∀ k, is_Some (form !! k) → k ≠ "label" → namesLabel k = false) →
  parsed r' = (<["label" := ["default"]]> form, err) →
  (∀ label, boundLabel (order env) r = Some label → label = "default") ∧
  serveOne config env r srv = serveOne config env r' srv.
Proof.
  intros Hr Hvs Hlast Hothers Hr'.
  assert (∀ k vs, form !! k = Some vs → namesLabel k = true →
                  schema.decode paramDecoder "default" vs = "default") as Hf.
  { intros k vs' Hk Hn. destruct (decide (k = "label")) as [->|Hne].
    - rewrite Hvs in Hk. injection Hk as <-.
      unfold schema.decode. by rewrite Hlast.
    - rewrite Hothers in Hn; [done|by eexists|done]. }
  split.
  - intros label. by apply (boundLabel_default _ r form err).
  - apply (serveOne_default config env r r' srv _ _ err Hr Hr' Hf).
    + intros k vs' Hk Hn. destruct (decide (k = "label")) as [->|Hne].
      * rewrite lookup_insert_eq in Hk. by injection Hk as <-.
      * rewrite lookup_insert_ne in Hk by done.
        rewrite Hothers in Hn; [done|by eexists|done].
    + symmetry. by apply unknownKeys_insert_label.
Qed.

Lemma empty_label_keeps_default_witness :
  (∀ label, boundLabel ascending (http.NewRequest "GET" "label=") = Some label →
            label = "default") ∧
  serveOne defaultConfig calm (http.NewRequest "GET" "label=") empty_store =
  serveOne defaultConfig calm (http.NewRequest "GET" "label=default") empty_store.
Proof.
  apply (empty_label_keeps_default defaultConfig calm (http.NewRequest "GET" "label=")
           (http.NewRequest "GET" "label=default") empty_store
           {[ "label" := [""] ]} None [""]).
  - vm_compute. reflexivity.
  - vm_compute. reflexivity.
  - reflexivity.
  - intros k [vs Hk] Hne. by rewrite lookup_singleton_ne in Hk.
  - vm_compute. reflexivity.
Defined.

(** C10, as the claim has it, fails: [GET /?label=] is not rejected; it is
    answered 200 with the value 1, and what was incremented is the counter
    of the label [default]. *)
Lemma empty_label_not_rejected :
  http.RawQuery (http.NewRequest "GET" "label=") = "label="
  ∧ parsed (http.NewRequest "GET" "label=") = ({[ "label" := [""] ]}, None)
  ∧ serveOne defaultConfig calm (http.NewRequest "GET" "label=") empty_store
    = (numberReply 1,
       {| redis.db := {[ "counter.next.default" := redis.Integer 1 ]};
          redis.issued := [redis.INCR "counter.next.default"] |})
  ∧ http.StatusCode (numberReply 1) = 200.
Proof. vm_compute. done. Qed.

(** ** The lifecycle *)

Lemma consistent_boot : consistent boot.
Proof. reflexivity. Qed.

(** A step from a consistent state leads to a consistent state, and moves
    the status forward if it moves it at all. *)
Lemma step_forward p p' :
  consistent p → step p p' →
  consistent p' ∧ forward (serverStatus p) (serverStatus p').
Proof.
  destruct p as [point st]. unfold consistent, forward, step, main_step, goto.
  simpl. intros Hc [f Hs].
  destruct point; simpl in Hs;
    repeat match type of Hs with
           | context [if ?b then _ else _] => destruct b
           end;
    try discriminate; injection Hs as <-; simpl; subst;
    split; try done; auto.
Qed.

Lemma reachable_consistent p : reachable p → consistent p.
Proof.
  unfold reachable. revert p. apply rtc_ind_r; [apply consistent_boot|].
  intros q p _ Hs IH. by apply (step_forward q p).
Qed.

Lemma forward_order st st' :
  forward st st' →
  (ServerStatus_int st ≤ ServerStatus_int st')%Z
  ∧ (st = ShuttingDown → st' = ShuttingDown).
Proof.
  intros [->|[[-> ->]|[-> ->]]]; simpl; split; (lia || done).
Qed.

(** Every state [run] lists can be stepped to. *)
Lemma run_steps f n : ∀ p q, q ∈ run f n p → rtc step p q.
Proof.
  induction n as [|n IH]; intros p q; simpl; [by intros ?%elem_of_nil|].
  destruct (main_step f p) as [p'|] eqn:Hs; [|by intros ?%elem_of_nil].
  assert (step p p') by (by exists f).
  intros [->|Hq]%elem_of_cons; [by apply rtc_once|].
  eapply rtc_l; [done|]. by apply IH.
Qed.

(** C8.  In every state [main] can reach, a step leaves [serverStatus] as
    it is or moves it from [Starting] to [Running] or from [Running] to
    [ShuttingDown]; so the status never goes back along any execution, and
    once it is [ShuttingDown] it stays so. *)
Theorem status_moves_forward p :
  reachable p →
  (∀ p', step p p' → forward (serverStatus p) (serverStatus p')) ∧
  (∀ p', rtc step p p' →
         (ServerStatus_int (serverStatus p)
          ≤ ServerStatus_int (serverStatus p'))%Z
         ∧ (serverStatus p = ShuttingDown → serverStatus p' = ShuttingDown)).
Proof.
  intros Hp%reachable_consistent. split.
  - intros p' Hs. by apply (step_forward p p').
  - intros p' Hs. induction Hs as [p|p q p' Hpq Hq IH]; [by split; [lia|]|].
    destruct (step_forward p q Hp Hpq) as [Hcq Hf].
    apply forward_order in Hf as [Hle Hterm].
    destruct (IH Hcq) as [Hle' Hterm']. split; [lia | auto].
Qed.

(** A run of [main] that is interrupted and shuts down cleanly: from the
    wait for the signal, where the status is [Running], to the return,
    where it is [ShuttingDown]. *)
Lemma status_moves_forward_witness :
  let fate := {| configError := false; listenError := false;
                 interrupt := true; shutdownError := false |} in
  let waiting := {| pc := at_awaitSignal; serverStatus := Running |} in
  let done_ := {| pc := returned; serverStatus := ShuttingDown |} in
  run fate 20 boot !! 5%nat = Some waiting ∧
  run fate 20 waiting !! 2%nat = Some done_ ∧
  (ServerStatus_int (serverStatus waiting)
   ≤ ServerStatus_int (serverStatus done_))%Z.
Proof.
  intros fate waiting done_.
  assert (run fate 20 boot !! 5%nat = Some waiting) as H1 by reflexivity.
  assert (run fate 20 waiting !! 2%nat = Some done_) as H2 by reflexivity.
  split_and!; [done..|].
  apply (status_moves_forward waiting).
  - apply (run_steps fate 20). eapply list_elem_of_lookup_2, H1.
  - apply (run_steps fate 20). eapply list_elem_of_lookup_2, H2.
Defined.

(** ** The about endpoint *)

(** C9, as the code has it.  [/about] is always answered 200, with the
    JSON encoding of the name ["counter"], the version the binary was built
    with, and as hostname what [os.Hostname] returned: the name of the
    host, or the empty string when the lookup fails, the error being
    dropped. *)
Theorem about_reply version host r :
  http.Result (aboutHandler version host http.NewRecorder r) =
  {| http.StatusCode := 200;
     http.Header := {[ "Content-Type" := "application/json" ]};
     http.Body :=
       [http.Write_bytes (Some (json.of_AboutResponse
          {| Name := "counter";
             Version := version;
             Hostname := default "" (os.nodename host) |}))] |}.
Proof. by destruct host as [[name|]]. Qed.

(** C9, as the claim has it, fails: on a host whose name cannot be looked
    up, the hostname in the reply is empty. *)
Lemma about_hostname_empty :
  let host := {| os.nodename := None |} in
  (os.Hostname host).1 = ""
  ∧ http.Body
      (http.Result (aboutHandler "dev" host http.NewRecorder (http.NewRequest "GET" "")))
    = [http.Write_bytes (Some (json.of_AboutResponse
         {| Name := "counter"; Version := "dev"; Hostname := "" |}))].
Proof. vm_compute. done. Qed.

(** ** Which keys stand for the field *)

Lemma lower_dot c : Ascii.eqb (strings.lower c) "." = Ascii.eqb c ".".
Proof. by destruct c as [[] [] [] [] [] [] [] []]. Qed.

Lemma Contains_ToLower s :
  strings.Contains "." (strings.ToLower s) = strings.Contains "." s.
Proof.
  induction s as [|c s IH]; [done|]. simpl. by rewrite lower_dot, IH.
Qed.

Lemma fields_nonempty sep s : strings.fields sep s ≠ [].
Proof.
  destruct s as [|c s]; [done|]. simpl.
  destruct (sep c); [done|]. by destruct (strings.fields sep s).
Qed.

Lemma fields_whole sep s :
  (∀ c, strings.Contains c s = true → sep c = false) →
  strings.fields sep s = [s].
Proof.
  induction s as [|c s IH]; intros H; [done|]. simpl.
  rewrite (H c) by (simpl; by rewrite Ascii.eqb_refl).
  rewrite IH; [done|]. intros x Hx. apply H. simpl. rewrite Hx.
  apply orb_true_r.
Qed.

Lemma fields_split s :
  strings.Contains "." s = true →
  ∃ f g rest, strings.fields (Ascii.eqb ".") s = f :: g :: rest.
Proof.
  induction s as [|c s IH]; [done|].
  cbn [strings.fields strings.Contains]. rewrite (Ascii.eqb_sym c).
  destruct (Ascii.eqb "." c); cbn [orb].
  - intros _. pose proof (fields_nonempty (Ascii.eqb ".") s).
    destruct (strings.fields _ s) as [|g rest]; [done|]. eauto.
  - intros (f & g & rest & ->)%IH. eauto.
Qed.

(** A key stands for the field [Label] exactly when it reads [label], in
    whatever letter case. *)
Lemma namesLabel_EqualFold k : namesLabel k = strings.EqualFold "label" k.
Proof.
  unfold namesLabel, schema.parsePath.
  destruct (strings.Contains "." k) eqn:Hdot.
  - destruct (fields_split k Hdot) as (f & g & rest & ->).
    symmetry. apply not_true_is_false. unfold strings.EqualFold.
    intros Heq%String.eqb_eq.
    rewrite <- Contains_ToLower, <- Heq in Hdot. by vm_compute in Hdot.
  - rewrite fields_whole; [done|].
    intros c Hc. destruct (Ascii.eqb_spec "." c) as [<-|]; [|done].
    congruence.
Qed.

(** ** The request [GET /?label=L] *)

Lemma fields_prefix sep pre s :
  (∀ c, strings.Contains c pre = true → sep c = false) →
  strings.fields sep (pre +:+ s) =
  match strings.fields sep s with
  | f :: fs => (pre +:+ f) :: fs
  | [] => [pre]
  end.
Proof.
  induction pre as [|c pre IH]; intros H.
  - rewrite app_nil_l. pose proof (fields_nonempty sep s).
    by destruct (strings.fields sep s).
  - rewrite app_cons. cbn [strings.fields].
    rewrite (H c) by (cbn [strings.Contains]; by rewrite Ascii.eqb_refl).
    rewrite IH.
    + pose proof (fields_nonempty sep s). by destruct (strings.fields sep s).
    + intros x Hx. apply H. cbn [strings.Contains]. rewrite Hx.
      apply orb_true_r.
Qed.

Lemma Contains_false_sep s :
  strings.Contains "&" s = false → strings.Contains ";" s = false →
  ∀ c, strings.Contains c s = true → url.separator c = false.
Proof.
  intros Ha Hs c Hc. unfold url.separator.
  destruct (Ascii.eqb_spec c "&") as [->|]; [congruence|].
  destruct (Ascii.eqb_spec c ";") as [->|]; [congruence|done].
Qed.

Lemma cut_prefix c pre rest :
  strings.Contains c pre = false →
  strings.cut c (pre +:+ String c rest) = (pre, rest).
Proof.
  induction pre as [|x pre IH]; cbn [strings.Contains strings.cut].
  - intros _. rewrite app_nil_l. cbn [strings.cut]. by rewrite Ascii.eqb_refl.
  - intros [Hx Hpre]%orb_false_iff. rewrite app_cons. cbn [strings.cut].
    by rewrite Hx, IH.
Qed.

Lemma QueryUnescape_plain s :
  strings.Contains "%" s = false → strings.Contains "+" s = false →
  url.QueryUnescape s = (s, None).
Proof.
  induction s as [|c s IH]; [done|]. cbn [strings.Contains url.QueryUnescape].
  intros [Hc Hs]%orb_false_iff [Hc' Hs']%orb_false_iff.
  by rewrite Hc, Hc', IH.
Qed.

Lemma plain_spec s :
  plain s = true →
  strings.Contains "&" s = false ∧ strings.Contains ";" s = false
  ∧ strings.Contains "%" s = false ∧ strings.Contains "+" s = false.
Proof.
  unfold plain. intros H%negb_true_iff.
  repeat apply orb_false_iff in H as [H ?]. done.
Qed.

Lemma ParseQuery_label label :
  plain label = true →
  url.ParseQuery ("label=" +:+ label) = ({[ "label" := [label] ]}, None).
Proof.
  intros (Ha & Hs & Hp & Hplus)%plain_spec. unfold url.ParseQuery.
  rewrite fields_prefix.
  2:{ intros c Hc. cbn [strings.Contains] in Hc. unfold url.separator.
      repeat (apply orb_true_iff in Hc as [Hc|Hc];
              [apply Ascii.eqb_eq in Hc as <-; done|]). done. }
  rewrite fields_whole by by apply Contains_false_sep.
  cbn [foldl url.parsePair]. rewrite app_cons. cbn [String.eqb].
  change (String "l" ("abel=" +:+ label)) with ("label" +:+ String "=" label).
  rewrite cut_prefix by done.
  replace (url.QueryUnescape "label") with ("label", @None url.EscapeError)
    by (vm_compute; done).
  rewrite QueryUnescape_plain by done.
  by rewrite lookup_empty, insert_empty.
Qed.

Lemma parsed_GET query :
  parsed (http.NewRequest "GET" query) =
  ((url.ParseQuery query).1, http.escape <$> (url.ParseQuery query).2).
Proof.
  unfold parsed, http.ParseForm, http.NewRequest. cbn -[url.ParseQuery].
  rewrite map_size_empty. by destruct (url.ParseQuery query).
Qed.

(** A plain, non-empty label is the label of the request that names it. *)
Lemma boundLabel_GET ρ label :
  plain label = true → label ≠ "" →
  boundLabel ρ (http.NewRequest "GET" ("label=" +:+ label)) = Some label.
Proof.
  intros Hp Hne. rewrite boundLabel_parsed, parsed_GET, ParseQuery_label by done.
  cbn [fst snd fmap option_fmap option_map].
  unfold Decode_CounterRequest, schema.Decode. cbn [Label].
  pose proof (range_perm ρ _ ({[ "label" := [label] ]} : url.Values)) as Hr.
  rewrite map_to_list_singleton in Hr. apply Permutation_singleton_r in Hr.
  rewrite Hr. cbn [foldl schema.visit].
  replace (schema.parsePath "label" "label") with true by (vm_compute; done).
  unfold schema.decode. cbn [last default from_option].
  unfold id. apply String.eqb_neq in Hne. by rewrite Hne, map_size_empty.
Qed.

(** Requests for a valid label, on a store that is reached and whose
    counter is far from the largest integer, are all answered 200. *)
Lemma serve_all_ok config label reqs : ∀ srv (k : Z),
  (0 ≤ k)%Z →
  stands_at config label k srv →
  Forall (λ j : World * http.Request,
            boundLabel (order j.1) j.2 = Some label
            ∧ link j.1 = redis.Connected) reqs →
  hasAlnum label = true →
  (k + Z.of_nat (List.length reqs) ≤ redis.MaxInt64)%Z →
  Forall (λ resp, http.StatusCode resp = 200) (serve config reqs srv).1.
Proof.
  induction reqs as [|[env r] rest IH]; intros srv k Hk Hat Hreqs Hal Hmax;
    [by constructor|].
  rewrite serve_cons.
  apply Forall_cons in Hreqs as [[Hl Hlink] Hreqs]. simpl in Hl, Hlink.
  rewrite serveOne_cases. rewrite boundLabel_parsed in Hl.
  destruct (parsed r) as [form [e|]]; [done|].
  destruct (Decode_CounterRequest _ _ _ _) as [params [e|]]; [done|].
  injection Hl as Hl. rewrite Hl, MatchRegexp_labelPattern, Hal, Hlink.
  unfold redis.Incr, redis.incr. unfold stands_at in Hat. rewrite Hat.
  cbn [List.length] in Hmax. rewrite Nat2Z.inj_succ in Hmax.
  assert (k ≠ redis.MaxInt64) by lia.
  set (key := getKey config label).
  set (sent := redis.INCR key :: redis.issued srv).
  assert (∀ m,
    m = <[key := redis.Integer (k + 1)]> (redis.db srv) →
    Forall (λ resp, http.StatusCode resp = 200)
      (serve config rest {| redis.db := m; redis.issued := sent |}).1)
    as Hrest.
  { intros m ->. apply (IH _ (k + 1)%Z); try done; try lia.
    unfold stands_at. cbn [redis.db]. fold key. rewrite lookup_insert_eq.
    destruct (decide (k + 1 = 0)); [exfalso; lia|done]. }
  destruct (decide (k = 0)) as [Hk0|Hk0].
  - subst k. specialize (Hrest _ eq_refl).
    destruct (serve config rest _) as [resps srv2]. by constructor.
  - destruct (decide (k = redis.MaxInt64)); [done|].
    specialize (Hrest _ eq_refl).
    destruct (serve config rest _) as [resps srv2]. by constructor.
Qed.

(** X4.  The test of the repository, for any label and any number of
    rounds: [n] times [GET /?label=L] for a plain label [L] with an alphanumeric
    byte, on a store that is reached and has no key for [L], is answered
    with the values 1 to [n]. *)
Corollary test_sequence config ρ label (n : nat) srv :
  plain label = true → hasAlnum label = true →
  redis.db srv !! getKey config label = None →
  (Z.of_nat n ≤ redis.MaxInt64)%Z →
  let env := {| order := ρ; link := redis.Connected |} in
  let reqs := replicate n (env, http.NewRequest "GET" ("label=" +:+ label)) in
  (serve config reqs srv).1 = (λ i : nat, numberReply (Z.of_nat i + 1)) <$> seq 0 n.
Proof.
  intros Hp Hal Habsent Hn env reqs.
  assert (label ≠ "") as Hne by (by intros ->).
  assert (Forall (λ j : World * http.Request,
            boundLabel (order j.1) j.2 = Some label
            ∧ link j.1 = redis.Connected) reqs) as Hreqs.
  { apply Forall_replicate. split; [by apply boundLabel_GET | done]. }
  assert (List.length reqs = n) as Hlen by apply length_replicate.
  pose proof (serve_all_ok config label reqs srv 0 ltac:(lia) Habsent Hreqs Hal
                ltac:(lia)) as Hok.
  apply list_eq. intros i. rewrite list_lookup_fmap.
  destruct ((serve config reqs srv).1 !! i) as [resp|] eqn:Hi.
  - rewrite (serve_counts config label reqs srv 0 ltac:(lia) Habsent
               (Forall_impl _ _ _ Hreqs (λ _ H, proj1 H)) Hok i resp Hi).
    apply lookup_lt_Some in Hi. rewrite serve_length, Hlen in Hi.
    rewrite lookup_seq_lt by done. simpl. by rewrite Z.add_0_l.
  - apply lookup_ge_None in Hi. rewrite serve_length, Hlen in Hi.
    by rewrite lookup_seq_ge.
Qed.

(** ** The tests of the repository, and a few more requests *)

(** [TestCounterHandler]: [GET /] ten times, the key of [default] deleted
    before. *)
Example TestCounterHandler :
  (replay defaultConfig (replicate 10 calm) (http.NewRequest "GET" "")
     empty_store).1
  = numberReply <$> [1; 2; 3; 4; 5; 6; 7; 8; 9; 10].
Proof. vm_compute. reflexivity. Qed.

(** [TestCounterHandlerWithLabel]: [GET /?label=foobar] ten times. *)
Example TestCounterHandlerWithLabel :
  replay defaultConfig (replicate 10 calm)
    (http.NewRequest "GET" "label=foobar") empty_store
  = (numberReply <$> [1; 2; 3; 4; 5; 6; 7; 8; 9; 10],
     {| redis.db := {[ "counter.next.foobar" := redis.Integer 10 ]};
        redis.issued := replicate 10 (redis.INCR "counter.next.foobar") |}).
Proof. vm_compute. reflexivity. Qed.

(** The bodies the tests compare with, as text: the third reads as
    follows, quotes and all. *)
Example third_body :
  json.bytes_of_NumberResponse {| Value := 3 |}
  = String "{" (String (ascii_of_N 34) ("value" +:+
      String (ascii_of_N 34) ":3}")).
Proof. vm_compute. reflexivity. Qed.

(** [TestInvalidLabel]: the target [/?label=%!@#] has the query [label=%!@],
    whose escape is malformed; the 400 comes from [ParseForm]. *)
Example TestInvalidLabel :
  serveOne defaultConfig calm (http.NewRequest "GET" "label=%!@") empty_store
  = (errorReply (Quoting "invalid URL escape " "%!@" ""), empty_store).
Proof. vm_compute. reflexivity. Qed.

(** A label without an alphanumeric byte that does parse. *)
Example invalid_label :
  serveOne defaultConfig calm (http.NewRequest "GET" "label=%21%40-") empty_store
  = (errorReply (Text "invalid label"), empty_store).
Proof. vm_compute. reflexivity. Qed.

(** The error replies go out as plain text: [http.Error] sets the content
    type after [render] has set it. *)
Example errorReply_content_type m :
  http.Header (errorReply m) !! "Content-Type"
  = Some "text/plain; charset=utf-8".
Proof. vm_compute. reflexivity. Qed.

(** A form posted in the body: its values come before those of the query
    string, and the last value of [label] is the one that counts. *)
Example posted_label :
  let r := {| http.Method := "POST";
              http.RawQuery := "label=fromquery";
              http.postBody := (Some {[ "label" := ["frombody"] ]}, None);
              http.PostForm := None;
              http.Form := None |} in
  parsed r = ({[ "label" := ["frombody"; "fromquery"] ]}, None)
  ∧ boundLabel ascending r = Some "fromquery".
Proof. vm_compute. done. Qed.

(** What the two options of the decoder would change, had [main.go] set
    them. *)
Example with_IgnoreUnknownKeys :
  schema.Decode (schema.IgnoreUnknownKeys true schema.NewDecoder) ascending
    "label" "default" {[ "label" := ["abc"]; "foo" := ["bar"] ]}
  = ("abc", None).
Proof. vm_compute. reflexivity. Qed.

Example with_ZeroEmpty :
  schema.Decode (schema.ZeroEmpty true schema.NewDecoder) ascending
    "label" "default" {[ "label" := [""] ]}
  = ("", None).
Proof. vm_compute. reflexivity. Qed.

(** Two keys that both stand for the field: which value stays depends on
    the order of the loop. *)
Example two_spellings :
  let form : url.Values := {[ "label" := ["a"]; "LABEL" := ["b"] ]} in
  schema.Decode paramDecoder ascending "label" "default" form
  ≠ schema.Decode paramDecoder descending "label" "default" form.
Proof. vm_compute. discriminate. Qed.

(** The readiness check [http] follows the status. *)
Example httpCheck_follows_status :
  let fate := {| configError := false; listenError := false;
                 interrupt := true; shutdownError := false |} in
  httpCheck boot = Some "HTTP server is starting"
  ∧ httpCheck <$> run fate 20 boot !! 5%nat = Some None
  ∧ httpCheck <$> run fate 20 boot !! 7%nat
    = Some (Some "HTTP server is shutting down").
Proof. vm_compute. done. Qed.

(** * Further properties of the code *)

(** ** The keys a request can change *)

Lemma Incr_frame link key srv k :
  k ≠ key →
  redis.db (redis.Incr link key srv).2 !! k = redis.db srv !! k.
Proof.
  intros Hne. unfold redis.Incr, redis.incr.
  destruct link; [| done |];
    destruct (redis.db srv !! key) as [[n| |]|]; try case_decide; simpl;
    by rewrite ?lookup_insert_ne.
Qed.

(** The handler changes the store at the key of its label, if anywhere. *)
Lemma counterHandler_frame config env w r srv k :
  redis.db (counterHandler config env w r srv).2 !! k = redis.db srv !! k
  ∨ ∃ label, boundLabel (order env) r = Some label
             ∧ regexp.MatchRegexp labelPattern label = true
             ∧ k = getKey config label.
Proof.
  rewrite counterHandler_store, serveOne_cases, boundLabel_parsed.
  destruct (parsed r) as [form [e|]]; [by left|].
  destruct (Decode_CounterRequest _ _ _ _) as [params [e|]]; [by left|].
  destruct (regexp.MatchRegexp labelPattern (Label params)) eqn:Hm; [|by left].
  destruct (decide (k = getKey config (Label params))) as [->|Hne].
  { right. by exists (Label params). }
  left. pose proof (Incr_frame (link env) _ srv k Hne) as Hf.
  by destruct (redis.Incr _ _ _) as [[val [e|]] srv'].
Qed.

(** X1.  Counters are independent: a request for one label leaves the
    counter of every other label as it was, whatever the outcome of the
    request. *)
Theorem other_counters_untouched config env w r srv label other :
  boundLabel (order env) r = Some label →
  other ≠ label →
  redis.db (counterHandler config env w r srv).2 !! getKey config other
  = redis.db srv !! getKey config other.
Proof.
  intros Hl Hne.
  destruct (counterHandler_frame config env w r srv (getKey config other))
    as [H|(l & Hl' & _ & Hk)]; [done|].
  rewrite Hl in Hl'. injection Hl' as <-.
  by apply getKey_inj in Hk.
Qed.

Lemma other_counters_untouched_witness :
  let srv := {| redis.db := {[ "counter.next.b" := redis.Integer 7 ]};
                redis.issued := [] |} in
  redis.db
    (counterHandler defaultConfig calm http.NewRecorder
       (http.NewRequest "GET" "label=a") srv).2 !! "counter.next.b"
  = Some (redis.Integer 7).
Proof.
  intros srv.
  change "counter.next.b" with (getKey defaultConfig "b") at 1.
  rewrite (other_counters_untouched defaultConfig calm http.NewRecorder
             (http.NewRequest "GET" "label=a") srv "a" "b").
  - vm_compute. reflexivity.
  - vm_compute. reflexivity.
  - discriminate.
Defined.

Lemma prefix_app (s t : string) : String.prefix s (s +:+ t) = true.
Proof.
  induction s as [|c s IH]; [by destruct t|].
  rewrite app_cons. cbn [String.prefix].
  destruct (ascii_dec c c); [apply IH | done].
Qed.

Lemma getKey_namespace config label :
  getKey config label = namespace config +:+ label.
Proof. unfold getKey, namespace. by rewrite !app_assoc_s. Qed.

(** X2.  The service writes under its own namespace only: a key that does
    not start with the configured prefix followed by [.next.] is never
    changed by a request. *)
Theorem writes_stay_in_namespace config env w r srv k :
  String.prefix (namespace config) k = false →
  redis.db (counterHandler config env w r srv).2 !! k = redis.db srv !! k.
Proof.
  intros Hk.
  destruct (counterHandler_frame config env w r srv k)
    as [H|(l & _ & _ & ->)]; [done|].
  by rewrite getKey_namespace, prefix_app in Hk.
Qed.

Lemma writes_stay_in_namespace_witness :
  let srv := {| redis.db := {[ "session.42" := redis.NotAnInteger ]};
                redis.issued := [] |} in
  redis.db
    (counterHandler defaultConfig calm http.NewRecorder
       (http.NewRequest "GET" "label=session.42") srv).2 !! "session.42"
  = Some redis.NotAnInteger.
Proof.
  intros srv.
  rewrite (writes_stay_in_namespace defaultConfig calm http.NewRecorder
             (http.NewRequest "GET" "label=session.42") srv "session.42").
  - vm_compute. reflexivity.
  - vm_compute. reflexivity.
Defined.

(** ** Counting on from a stored value *)

Lemma serve_counts_from config label reqs : ∀ srv (k : Z),
  redis.db srv !! getKey config label = Some (redis.Integer k) →
  Forall (λ j : World * http.Request, boundLabel (order j.1) j.2 = Some label)
    reqs →
  Forall (λ resp, http.StatusCode resp = 200) (serve config reqs srv).1 →
  ∀ (n : nat) resp,
    (serve config reqs srv).1 !! n = Some resp →
    resp = numberReply (k + Z.of_nat n + 1).
Proof.
  induction reqs as [|[env r] rest IH]; intros srv k Hat Hreqs Hok n resp;
    [done|].
  rewrite serve_cons in Hok |- *.
  destruct (serveOne config env r srv) as [resp1 srv1] eqn:H1.
  specialize (IH srv1 (k + 1)%Z).
  destruct (serve config rest srv1) as [resps srv2]. simpl in *.
  apply Forall_cons in Hok as [Hok1 Hok], Hreqs as [Hr Hreqs].
  pose proof (serveOne_ok config env r srv) as Hone.
  rewrite H1 in Hone. destruct (Hone Hok1) as (l & val & srv' & Hl & _ & Hi & E).
  simpl in Hr. rewrite Hr in Hl. injection Hl as <-. injection E as -> ->.
  apply Incr_ok in Hi as (_ & Hdb & Hval).
  assert (val = k + 1)%Z as ->.
  { destruct Hval as [[Hnone _]|Hsome]; [congruence|].
    rewrite Hsome in Hat. injection Hat. lia. }
  destruct n as [|n]; simpl.
  - intros [= <-]. f_equal. lia.
  - intros Hn. rewrite IH with (n := n) (resp := resp); try done.
    + f_equal. lia.
    + by rewrite Hdb, lookup_insert_eq.
Qed.

(** X3.  A counter goes on from what its key holds: when the key holds the
    integer [k], negative or not, the N-th of a sequence of requests for the
    label that are all answered 200 carries the value [k + N]. *)
Theorem counter_continues config label reqs srv (k : Z) (n : nat) resp :
  redis.db srv !! getKey config label = Some (redis.Integer k) →
  Forall (λ j : World * http.Request, boundLabel (order j.1) j.2 = Some label)
    reqs →
  Forall (λ resp, http.StatusCode resp = 200) (serve config reqs srv).1 →
  (serve config reqs srv).1 !! n = Some resp →
  http.Body resp =
    [http.Write_bytes
       (Some (json.of_NumberResponse {| Value := k + Z.of_nat n + 1 |}))].
Proof.
  intros Hat Hreqs Hok Hn.
  by rewrite (serve_counts_from config label reqs srv k Hat Hreqs Hok n resp Hn),
    numberReply_body.
Qed.

Lemma counter_continues_witness :
  let srv := {| redis.db := {[ "counter.next.foobar" := redis.Integer (-2) ]};
                redis.issued := [] |} in
  let reqs := replicate 3 (calm, http.NewRequest "GET" "label=foobar") in
  ∃ resp,
    (serve defaultConfig reqs srv).1 !! 2%nat = Some resp ∧
    http.Body resp =
      [http.Write_bytes (Some (json.of_NumberResponse {| Value := 1 |}))].
Proof.
  intros srv reqs. exists (numberReply 1). split; [vm_compute; reflexivity|].
  apply (counter_continues defaultConfig "foobar" reqs srv (-2) 2).
  - vm_compute. reflexivity.
  - repeat constructor.
  - vm_compute. repeat constructor.
  - vm_compute. reflexivity.
Defined.

(** The rounds of the tests do succeed: three of them on an empty store. *)
Lemma test_sequence_witness :
  (serve defaultConfig
     (replicate 3 (calm, http.NewRequest "GET" ("label=" +:+ "foobar")))
     empty_store).1
  = [numberReply 1; numberReply 2; numberReply 3].
Proof.
  apply (test_sequence defaultConfig ascending "foobar" 3 empty_store).
  - vm_compute. reflexivity.
  - vm_compute. reflexivity.
  - vm_compute. reflexivity.
  - vm_compute. discriminate.
Defined.

(** ** Which value becomes the label *)

Lemma decode_idem d x vs :
  schema.decode d (schema.decode d x vs) vs = schema.decode d x vs.
Proof.
  unfold schema.decode.
  by destruct (String.eqb (default "" (last vs)) ""), (schema.zeroEmpty d).
Qed.

(** When all the entries that name the field carry the values [vs], and
    there is one, the field ends as [vs] decodes. *)
Lemma visit_field_one d alias vs (l : list (string * list string)) :
  ∀ x errors k0,
    (k0, vs) ∈ l → schema.parsePath alias k0 = true →
    (∀ k vs', (k, vs') ∈ l → schema.parsePath alias k = true → vs' = vs) →
    (foldl (schema.visit d alias) (x, errors) l).1 = schema.decode d x vs.
Proof.
  induction l as [|[path values] l IH]; intros x errors k0 Hin Hk0 Hall.
  { by apply elem_of_nil in Hin. }
  cbn [foldl schema.visit].
  destruct (schema.parsePath alias path) eqn:Hp.
  - rewrite (Hall path values) by (done || apply list_elem_of_here).
    apply visit_field_stable. intros k vs' Hk' Hpk.
    rewrite (Hall k vs') by (done || by apply list_elem_of_further).
    apply decode_idem.
  - apply elem_of_cons in Hin as [[= <- <-]|Hin]; [congruence|].
    assert (∀ e, (foldl (schema.visit d alias) (x, e) l).1
                 = schema.decode d x vs) as Hrest.
    { intros e. apply (IH x e k0); try done.
      intros k vs' ?. apply Hall. by apply list_elem_of_further. }
    destruct (negb (schema.ignoreUnknownKeys d)); apply Hrest.
Qed.

Lemma Decode_one d alias ρ x (src : url.Values) k0 vs :
  src !! k0 = Some vs → schema.parsePath alias k0 = true →
  (∀ k, is_Some (src !! k) → schema.parsePath alias k = true → k = k0) →
  schema.Decode d ρ alias x src =
  (schema.decode d x vs,
   if (0 <? size (unknownKeys d alias src))%nat
   then Some (unknownKeys d alias src) else None).
Proof.
  intros Hk0 Hp Huniq. unfold schema.Decode.
  pose proof (Decode_errors d alias ρ x src) as He.
  pose proof (visit_field_one d alias vs (range ρ src) x ∅ k0) as Hf.
  destruct (foldl _ _ _) as [field errors]. simpl in *. subst errors.
  rewrite Hf; [by destruct (0 <? _)%nat| |done|].
  - rewrite (range_perm ρ _ src). by apply elem_of_map_to_list.
  - intros k vs' Hin Hpk. rewrite (range_perm ρ _ src) in Hin.
    apply elem_of_map_to_list in Hin.
    rewrite (Huniq k) in Hin by (done || by eexists). congruence.
Qed.

Lemma unknownKeys_singleton d k vs :
  namesLabel k = true → unknownKeys d "label" {[ k := vs ]} = ∅.
Proof.
  intros Hk. unfold unknownKeys. destruct (schema.ignoreUnknownKeys d); [done|].
  apply map_eq. intros k'. rewrite map_lookup_imap, lookup_empty.
  destruct (decide (k' = k)) as [->|Hne].
  - rewrite lookup_singleton_eq. simpl. unfold namesLabel in Hk. by rewrite Hk.
  - by rewrite lookup_singleton_ne.
Qed.

(** X5.  Of the values a request gives for its one label parameter, the
    last decides: it becomes the label when it is not empty, and when it is
    empty the label is ["default"], whatever the values before it. *)
Theorem last_value_is_label ρ r k vs :
  parsed r = ({[ k := vs ]}, None) →
  namesLabel k = true →
  boundLabel ρ r =
  Some (if String.eqb (default "" (last vs)) "" then "default"
        else default "" (last vs)).
Proof.
  intros Hr Hk. rewrite boundLabel_parsed, Hr.
  unfold Decode_CounterRequest. cbn [Label].
  rewrite (Decode_one paramDecoder "label" ρ "default" _ k vs).
  - by rewrite unknownKeys_singleton, map_size_empty.
  - apply lookup_singleton_eq.
  - done.
  - intros k' [vs' Hk'] _. by apply lookup_singleton_Some in Hk' as [-> _].
Qed.

Lemma last_value_is_label_witness :
  boundLabel descending (http.NewRequest "GET" "label=a&label=b&label=")
  = Some "default"
  ∧ boundLabel descending (http.NewRequest "GET" "label=a&label=&label=b")
    = Some "b".
Proof.
  split.
  - rewrite (last_value_is_label descending
               (http.NewRequest "GET" "label=a&label=b&label=")
               "label" ["a"; "b"; ""]); [done| |]; vm_compute; reflexivity.
  - rewrite (last_value_is_label descending
               (http.NewRequest "GET" "label=a&label=&label=b")
               "label" ["a"; ""; "b"]); [done| |]; vm_compute; reflexivity.
Defined.



(** ** One request value, handled again *)

Lemma ParseForm_shape r :
  ∃ postForm,
    (http.ParseForm r).1 =
    {| http.Method := http.Method r;
       http.RawQuery := http.RawQuery r;
       http.postBody := http.postBody r;
       http.PostForm := Some postForm;
       http.Form := Some (parsed r).1 |}.
Proof.
  unfold parsed, http.ParseForm.
  destruct (match http.PostForm r with Some _ => _ | None => _ end)
    as [postForm err].
  destruct (match http.Form r with Some _ => _ | None => _ end)
    as [form err'].
  by exists postForm.
Qed.

Lemma ParseForm_parsed r :
  parsed (http.ParseForm r).1 = ((parsed r).1, None).
Proof.
  destruct (ParseForm_shape r) as [postForm ->]. reflexivity.
Qed.

Lemma counterHandler_request config env w r srv :
  (counterHandler config env w r srv).1.2 = (http.ParseForm r).1.
Proof.
  unfold counterHandler.
  destruct (http.ParseForm r) as [r1 [e|]]; [done|].
  destruct (Decode_CounterRequest _ _ _ _) as [params [e|]]; [done|].
  destruct (regexp_Match _ _) as [valid e].
  destruct (negb valid || bool_decide (e ≠ None)); [done|].
  destruct (redis.Incr _ _ _) as [[val [e'|]] srv']; done.
Qed.

(** X7.  The handler leaves its request parsed: handed the same request
    value once more, it finds the parameters of the first parse and no
    parse error, also when the first parse had failed. *)
Theorem request_stays_parsed config env w r srv :
  parsed (counterHandler config env w r srv).1.2 = ((parsed r).1, None).
Proof. rewrite counterHandler_request. apply ParseForm_parsed. Qed.

Lemma replay_cons config env rest r srv :
  replay config (env :: rest) r srv =
  let '(resp, srv1) := serveOne config env r srv in
  let '(resps, srv2) := replay config rest (http.ParseForm r).1 srv1 in
  (resp :: resps, srv2).
Proof.
  cbn [replay]. unfold serveOne.
  rewrite <- (counterHandler_request config env http.NewRecorder r srv).
  by destruct (counterHandler config env http.NewRecorder r srv) as [[w r'] srv1].
Qed.

(** The reply and the store depend on the request through its parameters
    and their parse error only. *)
Lemma serveOne_parsed config env r r0 srv :
  parsed r = parsed r0 → serveOne config env r srv = serveOne config env r0 srv.
Proof. intros H. by rewrite !serveOne_cases, H. Qed.

Lemma replay_serve config envs : ∀ r r0 srv,
  parsed r = parsed r0 → (parsed r0).2 = None →
  replay config envs r srv = serve config ((λ env, (env, r0)) <$> envs) srv.
Proof.
  induction envs as [|env rest IH]; intros r r0 srv Hr Hok; [done|].
  rewrite fmap_cons, serve_cons, replay_cons.
  rewrite (serveOne_parsed config env r r0 srv Hr).
  destruct (serveOne config env r0 srv) as [resp srv1].
  rewrite (IH (http.ParseForm r).1 r0 srv1); [done| |done].
  rewrite ParseForm_parsed, Hr. destruct (parsed r0) as [form err].
  simpl in *. by subst err.
Qed.

(** X8.  Handing one request value to the handler again and again, as the
    tests do, gives the replies and the store that as many separate requests
    with the same query give, provided the query parses. *)
Theorem replay_is_serve config envs r srv :
  (parsed r).2 = None →
  replay config envs r srv = serve config ((λ env, (env, r)) <$> envs) srv.
Proof. intros Hok. by apply replay_serve. Qed.

Lemma replay_is_serve_witness :
  replay defaultConfig [calm; calm] (http.NewRequest "GET" "label=foobar")
    empty_store
  = serve defaultConfig
      [(calm, http.NewRequest "GET" "label=foobar");
       (calm, http.NewRequest "GET" "label=foobar")] empty_store.
Proof.
  apply (replay_is_serve defaultConfig [calm; calm]
           (http.NewRequest "GET" "label=foobar") empty_store).
  vm_compute. reflexivity.
Defined.

(** Without the proviso it is not so: the malformed pair of the query below
    is reported on the first round only, and the second round counts. *)
Example replay_forgets_parse_error :
  (replay defaultConfig [calm; calm] (http.NewRequest "GET" "label=abc&x=%zz")
     empty_store).1
  = [errorReply (Quoting "invalid URL escape " "%zz" ""); numberReply 1].
Proof. vm_compute. reflexivity. Qed.

(** ** The render methods on any writer *)

Ltac render_unfold :=
  cbv [NumberResponse_render AboutResponse_render ErrorResponse_render
       json.Marshal_NumberResponse json.Marshal_AboutResponse
       json.Marshal_ErrorResponse
       http.Error http.Write http.WriteHeader http.Header_Set http.Result
       http.header http.wroteHeader http.body
       http.StatusCode http.Header http.Body http.StatusOK].

(** X9.  On a writer nothing was written to, [NumberResponse.render]
    sends status 200 with the content type [application/json], and
    [ErrorResponse.render] sends the status it is given with the content
    type [text/plain; charset=utf-8] and [nosniff]: the [application/json]
    it sets first is overwritten by [http.Error].  Every other header of
    the writer goes out unchanged, and the body gains one write. *)
Theorem render_content_types v e code w :
  http.wroteHeader w = None →
  let ok := http.Result (NumberResponse_render v w) in
  let ko := http.Result (ErrorResponse_render e code w) in
  (http.StatusCode ok = 200
   ∧ http.Header ok = <["Content-Type" := "application/json"]> (http.header w)
   ∧ http.Body ok
     = (http.body w ++ [http.Write_bytes (Some (json.of_NumberResponse v))])%list)
  ∧ (http.StatusCode ko = code
     ∧ http.Header ko !! "Content-Type" = Some "text/plain; charset=utf-8"
     ∧ http.Header ko !! "X-Content-Type-Options" = Some "nosniff"
     ∧ (∀ k, k ≠ "Content-Type" → k ≠ "X-Content-Type-Options" →
             http.Header ko !! k = http.header w !! k)
     ∧ http.Body ko
       = (http.body w
          ++ [http.Fprintln (http.string_of (Some (json.of_ErrorResponse e)))])%list).
Proof.
  destruct w as [hd wh bd]. cbn [http.wroteHeader]. intros ->.
  render_unfold.
  split_and!; try done.
  - rewrite lookup_insert_ne by done. apply lookup_insert_eq.
  - apply lookup_insert_eq.
  - intros k Hk1 Hk2. by rewrite !lookup_insert_ne.
Qed.

Lemma render_content_types_witness :
  http.Header (errorReply (Text "invalid label")) !! "Content-Type"
  = Some "text/plain; charset=utf-8"
  ∧ http.Header (numberReply 1) !! "Content-Type" = Some "application/json".
Proof.
  destruct (render_content_types {| Value := 1 |}
              {| Error := Text "invalid label" |} 400 http.NewRecorder eq_refl)
    as ((_ & Hok & _) & (_ & Hko & _)).
  split; [exact Hko|]. unfold numberReply. rewrite Hok. reflexivity.
Defined.

(** X10.  On a writer whose header has gone out, no render method changes
    the status or the header that went out: it only adds its one write to
    the body. *)
Theorem render_after_header v a e code w c h :
  http.wroteHeader w = Some (c, h) →
  let sent r := http.StatusCode r = c ∧ http.Header r = h in
  (sent (http.Result (NumberResponse_render v w))
   ∧ http.Body (http.Result (NumberResponse_render v w))
     = (http.body w ++ [http.Write_bytes (Some (json.of_NumberResponse v))])%list)
  ∧ (sent (http.Result (AboutResponse_render a w))
     ∧ http.Body (http.Result (AboutResponse_render a w))
       = (http.body w ++ [http.Write_bytes (Some (json.of_AboutResponse a))])%list)
  ∧ (sent (http.Result (ErrorResponse_render e code w))
     ∧ http.Body (http.Result (ErrorResponse_render e code w))
       = (http.body w
          ++ [http.Fprintln (http.string_of (Some (json.of_ErrorResponse e)))])%list).
Proof.
  destruct w as [hd wh bd]. cbn [http.wroteHeader]. intros ->.
  render_unfold. done.
Qed.

Lemma render_after_header_witness :
  let w := NumberResponse_render {| Value := 1 |} http.NewRecorder in
  http.StatusCode
    (http.Result (ErrorResponse_render {| Error := Text "late" |} 400 w)) = 200.
Proof.
  intros w.
  apply (render_after_header {| Value := 1 |}
           {| Name := ""; Version := ""; Hostname := "" |}
           {| Error := Text "late" |} 400 w 200
           {[ "Content-Type" := "application/json" ]}).
  reflexivity.
Defined.

(** ** Readiness along the lifecycle *)

(** X11.  The readiness check [http] passes exactly while [main] is
    between the assignment of [Running] and the assignment of
    [ShuttingDown]; when it fails, its error says that the server is
    starting or that it is shutting down. *)
Theorem ready_while_running p :
  reachable p →
  (httpCheck p = None ↔ pc p = at_awaitSignal ∨ pc p = at_setShuttingDown)
  ∧ (httpCheck p = None
     ∨ httpCheck p = Some "HTTP server is starting"
     ∨ httpCheck p = Some "HTTP server is shutting down").
Proof.
  intros Hc%reachable_consistent. destruct p as [point st].
  unfold consistent, httpCheck in *. simpl in *.
  destruct point, st; try done; (split; [split; [try done|]|]);
    try (intros [?|?]; done); auto.
Qed.

Lemma ready_while_running_witness :
  let fate := {| configError := false; listenError := false;
                 interrupt := true; shutdownError := false |} in
  httpCheck <$> run fate 20 boot
  = [Some "HTTP server is starting"; Some "HTTP server is starting";
     Some "HTTP server is starting"; Some "HTTP server is starting";
     Some "HTTP server is starting"; None; None;
     Some "HTTP server is shutting down"; Some "HTTP server is shutting down"]
  ∧ (httpCheck {| pc := at_awaitSignal; serverStatus := Running |} = None
     ↔ at_awaitSignal = at_awaitSignal ∨ at_awaitSignal = at_setShuttingDown).
Proof.
  intros fate. split; [reflexivity|].
  apply (ready_while_running {| pc := at_awaitSignal; serverStatus := Running |}).
  apply (run_steps fate 20 boot). apply (list_elem_of_lookup_2 _ 5%nat).
  reflexivity.
Defined.



(** ** Routing *)

Lemma longer_none path (l : list (string * Handler)) :
  (∀ k h, (k, h) ∈ l → mux.pathMatch k path = false) →
  foldl (mux.longer path) None l = None.
Proof.
  induction l as [|[k h] l IH]; intros H; [done|]. cbn [foldl mux.longer].
  rewrite (H k h) by apply list_elem_of_here. simpl.
  apply IH. intros k' h' ?. apply (H k' h'). by apply list_elem_of_further.
Qed.

Lemma pathMatch_exact k path :
  k ≠ "" → mux.endsWithSlash k = false →
  mux.pathMatch k path = String.eqb k path.
Proof.
  intros Hk Hs. unfold mux.pathMatch.
  apply String.eqb_neq in Hk. by rewrite Hk, Hs.
Qed.

(** X13.  On the primary listener every path is a counter request: the
    router of [main] registers the one pattern [/] without a panic, and
    finds [counterHandler] for every path that starts with a slash,
    [/about] and [/metrics] among them, and the not-found handler for no
    path but those that do not. *)
Theorem router_routes_all ρ host path :
  ∃ mx, router = Some mx
        ∧ mux.handler ρ mx host path
          = if String.prefix "/" path then (to_counterHandler, "/")
            else (to_NotFound, "").
Proof.
  exists {| mux.m := {[ "/" := to_counterHandler ]}; mux.hosts := false |}.
  split; [reflexivity|].
  unfold mux.handler, mux.match_. cbn [mux.hosts mux.m].
  destruct (decide (path = "/")) as [->|Hne].
  { by rewrite lookup_singleton_eq. }
  rewrite lookup_singleton_ne by done.
  pose proof (range_perm ρ _ ({[ "/" := to_counterHandler ]} : gmap string Handler))
    as Hr.
  rewrite map_to_list_singleton in Hr. apply Permutation_singleton_r in Hr.
  rewrite Hr. cbn [foldl mux.longer].
  unfold mux.pathMatch. cbn [String.eqb mux.endsWithSlash negb Ascii.eqb].
  replace (Ascii.eqb "/" "/") with true by reflexivity. cbn [negb].
  by destruct (String.prefix "/" path).
Qed.

Lemma adminRouter_table :
  adminRouter =
  Some {| mux.m := <["/about" := to_aboutHandler]>
                     (<["/ready" := to_ReadyEndpoint]>
                        (<["/live" := to_LiveEndpoint]>
                           (<["/metrics" := to_metrics]> ∅)));
          mux.hosts := false |}.
Proof. vm_compute. reflexivity. Qed.

(** X14.  On the administrative listener the four registered paths, and
    only they, have a handler: [/metrics], [/live], [/ready] and [/about]
    are registered without a panic and each is routed to its own handler,
    and every other path, [/about/] and [/] among them, gets the not-found
    handler. *)
Theorem adminRouter_routes ρ host path :
  ∃ mx, adminRouter = Some mx
        ∧ mux.handler ρ mx host path
          = if String.eqb path "/metrics" then (to_metrics, path)
            else if String.eqb path "/live" then (to_LiveEndpoint, path)
            else if String.eqb path "/ready" then (to_ReadyEndpoint, path)
            else if String.eqb path "/about" then (to_aboutHandler, path)
            else (to_NotFound, "").
Proof.
  eexists. split; [apply adminRouter_table|].
  unfold mux.handler, mux.match_. cbn [mux.hosts mux.m].
  destruct (String.eqb_spec path "/metrics") as [->|H1]; [reflexivity|].
  destruct (String.eqb_spec path "/live") as [->|H2]; [reflexivity|].
  destruct (String.eqb_spec path "/ready") as [->|H3]; [reflexivity|].
  destruct (String.eqb_spec path "/about") as [->|H4]; [reflexivity|].
  rewrite !lookup_insert_ne, lookup_empty by done.
  rewrite longer_none; [done|].
  intros k h Hin. rewrite (range_perm ρ _ _) in Hin.
  apply elem_of_map_to_list in Hin.
  repeat (apply lookup_insert_Some in Hin as [[<- _]|[_ Hin]];
          [rewrite pathMatch_exact by done;
           by apply String.eqb_neq, not_eq_sym|]).
  by rewrite lookup_empty in Hin.
Qed.

(** ** Counters only grow *)

Lemma Incr_grows link key srv k (n : Z) :
  redis.db srv !! k = Some (redis.Integer n) →
  ∃ n' : Z, redis.db (redis.Incr link key srv).2 !! k = Some (redis.Integer n')
            ∧ (n ≤ n' ≤ n + 1)%Z.
Proof.
  intros Hk. destruct (decide (k = key)) as [->|Hne].
  - unfold redis.Incr, redis.incr. rewrite Hk.
    destruct link; [| |]; try case_decide; simpl;
      rewrite ?lookup_insert_eq; eexists; (split; [done|lia]).
  - rewrite Incr_frame by done. exists n. split; [done|lia].
Qed.

Lemma serveOne_store config env r srv :
  (serveOne config env r srv).2 = srv
  ∨ ∃ key, (serveOne config env r srv).2 = (redis.Incr (link env) key srv).2.
Proof.
  rewrite serveOne_cases.
  destruct (parsed r) as [form [e|]]; [by left|].
  destruct (Decode_CounterRequest _ _ _ _) as [params [e|]]; [by left|].
  destruct (regexp.MatchRegexp labelPattern (Label params)); [|by left].
  right. exists (getKey config (Label params)).
  by destruct (redis.Incr _ _ _) as [[val [e|]] srv'].
Qed.

(** X15.  The service never takes a counter back: through any sequence of
    requests, for any labels and with any outcomes, a key that holds an
    integer still holds one afterwards, not smaller than before and larger
    by the number of requests at most. *)
Theorem counters_only_grow config reqs : ∀ srv k (n : Z),
  redis.db srv !! k = Some (redis.Integer n) →
  ∃ n' : Z,
    redis.db (serve config reqs srv).2 !! k = Some (redis.Integer n')
    ∧ (n ≤ n' ≤ n + Z.of_nat (List.length reqs))%Z.
Proof.
  induction reqs as [|[env r] rest IH]; intros srv k n Hk.
  { exists n. simpl. split; [done|lia]. }
  rewrite serve_cons.
  assert (∃ n1 : Z, redis.db (serveOne config env r srv).2 !! k
                    = Some (redis.Integer n1) ∧ (n ≤ n1 ≤ n + 1)%Z)
    as (n1 & Hk1 & Hn1).
  { destruct (serveOne_store config env r srv) as [->|[key ->]].
    - exists n. split; [done|lia].
    - by apply Incr_grows. }
  destruct (serveOne config env r srv) as [resp srv1]. simpl in Hk1.
  destruct (IH srv1 k n1 Hk1) as (n' & Hk' & Hn').
  destruct (serve config rest srv1) as [resps srv2]. simpl in *.
  exists n'. split; [done|]. lia.
Qed.

Lemma counters_only_grow_witness :
  let srv := {| redis.db := {[ "counter.next.a" := redis.Integer 5 ]};
                redis.issued := [] |} in
  let reqs := [(calm, http.NewRequest "GET" "label=a");
               (calm, http.NewRequest "GET" "label=!!");
               (calm, http.NewRequest "GET" "label=a")] in
  redis.db (serve defaultConfig reqs srv).2 !! "counter.next.a"
  = Some (redis.Integer 7)
  ∧ ∃ n' : Z,
      redis.db (serve defaultConfig reqs srv).2 !! "counter.next.a"
      = Some (redis.Integer n') ∧ (5 ≤ n' ≤ 5 + 3)%Z.
Proof.
  intros srv reqs. split; [vm_compute; reflexivity|].
  apply (counters_only_grow defaultConfig reqs srv "counter.next.a" 5).
  vm_compute. reflexivity.
Defined.

(** ** How [main] ends *)

(** X16.  Once the interrupt has come, [main] ends within nine steps: it
    returns, with the status [ShuttingDown], when the configuration, the
    listener and the shutdown all worked, and it exits through [log.Fatal]
    otherwise. *)
Theorem main_ends f (n : nat) :
  interrupt f = true → (9 ≤ n)%nat →
  ∃ p, last (run f n boot) = Some p
       ∧ main_step f p = None
       ∧ pc p = (if configError f || listenError f || shutdownError f
                 then exited else returned)
       ∧ (pc p = returned → serverStatus p = ShuttingDown).
Proof.
  destruct f as [c l i s]. cbn [interrupt configError listenError shutdownError].
  intros -> Hn.
  do 9 (destruct n as [|n]; [lia|]). clear Hn.
  destruct c; [|destruct l; [|destruct s]]; cbn [orb];
    [exists {| pc := exited; serverStatus := Starting |}
    |exists {| pc := exited; serverStatus := Starting |}
    |exists {| pc := exited; serverStatus := ShuttingDown |}
    |exists {| pc := returned; serverStatus := ShuttingDown |}];
    (split; [by destruct n|done]).
Qed.

Lemma main_ends_witness :
  let fate := {| configError := false; listenError := false;
                 interrupt := true; shutdownError := true |} in
  ∃ p, last (run fate 9 boot) = Some p
       ∧ main_step fate p = None
       ∧ pc p = exited
       ∧ (pc p = returned → serverStatus p = ShuttingDown).
Proof.
  intros fate. apply (main_ends fate 9); [reflexivity|lia].
Defined.
